(** * Carla ring buffer (CarlaRingBuffer.hpp): model and verification

    The engine [CarlaRingBuffer<BufferStruct>] and its two wrappers
    ([CarlaHeapRingBuffer], [CarlaStackRingBuffer]) are embedded as pure
    functions over an explicit object state.

    - [uint32_t] and [std::size_t] values are integers of [Z]; the
      unsigned wrap-around of [std::size_t] arithmetic (64 bits) is written
      out in [SizeT].
    - storage and caller buffers are lists of bytes, a pointer to bytes is
      an [option] ([None] is [nullptr]);
    - [fBuffer] points either nowhere or at the wrapper's own member
      ([fHeapBuffer] / [fStackBuffer]); the member is part of the object
      state, so a write through [fBuffer] is a write to the member.
    - every method is a function from the object state to a result and the
      new object state;
    - [CARLA_SAFE_ASSERT_RETURN(cond, ret)] (CarlaDefines.h) reports a
      failed [cond] to the diagnostic log and returns [ret]; the log
      ([carla_safe_assert], [carla_stderr2]) is outside the object state, so
      a guard is a plain early return. *)

From Stdlib Require Import ZArith List Bool Lia.
From Stdlib Require Import Init.Byte Strings.Byte.
Import ListNotations.
Local Open Scope Z_scope.

(* ------------------------------------------------------------------ *)
(** ** Machine integers *)

Module SizeT.

(** [std::size_t] is taken to be 64 bits wide. *)
Definition modulus : Z := 18446744073709551616.

Definition wrap (z : Z) : Z := z mod modulus.

Definition add (a b : Z) : Z := wrap (a + b).

Definition sub (a b : Z) : Z := wrap (a - b).

End SizeT.

Definition UINT32_MODULUS : Z := 4294967296.

(** The limits of <stdint.h> the unsigned readers compare against. *)
Definition INT_LEAST8_MAX : Z := 127.
Definition INT_LEAST16_MAX : Z := 32767.
Definition INT_LEAST32_MAX : Z := 2147483647.
Definition INT_LEAST64_MAX : Z := 9223372036854775807.

(* ------------------------------------------------------------------ *)
(** ** Bytes and object representations *)

Definition Z_of_byte (b : byte) : Z := Z.of_N (Byte.to_N b).

Definition byte_of_Z (z : Z) : byte :=
  match Byte.of_N (Z.to_N (z mod 256)) with
  | Some b => b
  | None => x00
  end.

(** Object representation of the low [8 * n] bits of [v], least
    significant byte first (the byte order of the targets Carla builds
    for). *)
Fixpoint to_bytes (n : nat) (v : Z) : list byte :=
  match n with
  | O => []
  | S k => byte_of_Z v :: to_bytes k (v / 256)
  end.

(** The unsigned value stored in a run of bytes. *)
Fixpoint from_bytes (l : list byte) : Z :=
  match l with
  | [] => 0
  | b :: t => Z_of_byte b + 256 * from_bytes t
  end.

(** Two's complement reading of a [bits]-wide unsigned value. *)
Definition to_signed (bits : Z) (u : Z) : Z :=
  if u <? 2 ^ (bits - 1) then u else u - 2 ^ bits.

(** [static_cast] to an unsigned type of [bits] bits. *)
Definition to_unsigned (bits : Z) (v : Z) : Z := v mod 2 ^ bits.

(** The value of a signed scalar of [n] bytes held in [l]. *)
Definition signed_of_bytes (n : nat) (l : list byte) : Z :=
  to_signed (8 * Z.of_nat n) (from_bytes (firstn n l)).

(** [std::memcpy(dst + doff, src + soff, n)] on byte lists.  Inside both
    regions it transfers byte for byte.  C++ leaves a copy that leaves
    either region undefined; here no byte is transferred at such an index,
    and [memcpy_in_bounds_write] and [memcpy_in_bounds_read] below show
    that the engine never gets there on a well-formed state. *)
Definition memcpy (dst : list byte) (doff : nat) (src : list byte)
  (soff n : nat) : list byte :=
  map (fun i =>
         if (doff <=? i)%nat && (i <? doff + n)%nat
         then nth (soff + (i - doff)) src (nth i dst x00)
         else nth i dst x00)
      (seq 0 (length dst)).

(** Modelled from the spec: [carla_zeroBytes] (CarlaUtils.hpp) is not among
    the sources; the spec names it a zero-fill utility for clearing memory.
    It sets the first [n] bytes behind a non-null pointer to zero. *)
Definition carla_zeroBytes (p : option (list byte)) (n : Z)
  : option (list byte) :=
  match p with
  | None => None
  | Some l =>
      Some (map (fun i => if (i <? Z.to_nat n)%nat then x00 else nth i l x00)
                (seq 0 (length l)))
  end.

(** Modelled from the spec: [carla_nextPowerOf2] (CarlaMathUtils.hpp) is not
    among the sources; the spec has it round a size up to the next power of
    two greater than or equal to it.  The result is a [uint32_t]. *)
Definition carla_nextPowerOf2 (sz : Z) : Z :=
  (2 ^ Z.log2_up sz) mod UINT32_MODULUS.

(* ------------------------------------------------------------------ *)
(** ** Buffer structs *)

(** [HeapBuffer] and [StackBuffer] have the same members; [StackBuffer]
    fixes [size] to 4096 and its [buf] is an array, never null. *)
Record BufferStruct : Type := mkBufferStruct {
  size : Z;                      (* uint32_t *)
  head : Z;                      (* std::size_t *)
  tail : Z;                      (* std::size_t *)
  wrtn : Z;                      (* std::size_t *)
  invalidateCommit : bool;
  buf : option (list byte)       (* uint8_t*, None is nullptr *)
}.

Definition StackBuffer_size : Z := 4096.

Definition set_size (v : Z) (b : BufferStruct) : BufferStruct :=
  mkBufferStruct v (head b) (tail b) (wrtn b) (invalidateCommit b) (buf b).

Definition set_head (v : Z) (b : BufferStruct) : BufferStruct :=
  mkBufferStruct (size b) v (tail b) (wrtn b) (invalidateCommit b) (buf b).

Definition set_tail (v : Z) (b : BufferStruct) : BufferStruct :=
  mkBufferStruct (size b) (head b) v (wrtn b) (invalidateCommit b) (buf b).

Definition set_wrtn (v : Z) (b : BufferStruct) : BufferStruct :=
  mkBufferStruct (size b) (head b) (tail b) v (invalidateCommit b) (buf b).

Definition set_invalidateCommit (v : bool) (b : BufferStruct) : BufferStruct :=
  mkBufferStruct (size b) (head b) (tail b) (wrtn b) v (buf b).

Definition set_buf (v : option (list byte)) (b : BufferStruct) : BufferStruct :=
  mkBufferStruct (size b) (head b) (tail b) (wrtn b) (invalidateCommit b) v.

(** The bytes behind [buf]; nothing behind a null pointer. *)
Definition storage (b : BufferStruct) : list byte :=
  match buf b with
  | Some l => l
  | None => []
  end.

(** [HeapBuffer::copyDataFrom]. *)
Definition copyDataFrom (self rb : BufferStruct) : BufferStruct :=
  if negb (size self =? size rb) then self
  else
    mkBufferStruct (size rb) (head rb) (tail rb) (wrtn rb)
      (invalidateCommit rb)
      (option_map
         (fun d => memcpy d 0 (storage rb) 0 (Z.to_nat (size rb)))
         (buf self)).

(* ------------------------------------------------------------------ *)
(** ** The engine object *)

(** What [fBuffer] can hold: [nullptr], or the address of the wrapper's
    own buffer struct. *)
Inductive ptr : Type :=
| nullptr
| member.

Definition ptr_eqb (p q : ptr) : bool :=
  match p, q with
  | nullptr, nullptr => true
  | member, member => true
  | _, _ => false
  end.

(** A ring buffer object: the engine's pointer and the wrapper's struct. *)
Record CarlaRingBuffer : Type := mkRing {
  fBuffer : ptr;
  fStruct : BufferStruct        (* fHeapBuffer / fStackBuffer *)
}.

Definition set_fBuffer (p : ptr) (rb : CarlaRingBuffer) : CarlaRingBuffer :=
  mkRing p (fStruct rb).

Definition set_fStruct (b : BufferStruct) (rb : CarlaRingBuffer)
  : CarlaRingBuffer :=
  mkRing (fBuffer rb) b.

(** Methods: a result and the object afterwards. *)
Definition M (A : Type) : Type := CarlaRingBuffer -> A * CarlaRingBuffer.

Definition ret {A : Type} (a : A) : M A := fun rb => (a, rb).

Definition bind {A B : Type} (m : M A) (k : A -> M B) : M B :=
  fun rb => let '(a, rb') := m rb in k a rb'.

Notation "x <- m ;; k" := (bind m (fun x => k))
  (at level 61, m at next level, right associativity).

(** [clear()] *)
Definition clear : M unit := fun rb =>
  match fBuffer rb with
  | nullptr => (tt, rb)
  | member =>
      let fb := fStruct rb in
      let fb := set_head 0 fb in
      let fb := set_tail 0 fb in
      let fb := set_wrtn 0 fb in
      let fb := set_invalidateCommit false fb in
      let fb := set_buf (carla_zeroBytes (buf fb) (size fb)) fb in
      (tt, set_fStruct fb rb)
  end.

(** [commitWrite()] *)
Definition commitWrite : M bool := fun rb =>
  match fBuffer rb with
  | nullptr => (false, rb)
  | member =>
      let fb := fStruct rb in
      if invalidateCommit fb then
        let fb := set_wrtn (head fb) fb in
        let fb := set_invalidateCommit false fb in
        (false, set_fStruct fb rb)
      else if negb (negb (head fb =? wrtn fb)) then (false, rb)
      else (true, set_fStruct (set_head (wrtn fb) fb) rb)
  end.

(** [isDataAvailableForReading()] *)
Definition isDataAvailableForReading (rb : CarlaRingBuffer) : bool :=
  match fBuffer rb with
  | nullptr => false
  | member => negb (head (fStruct rb) =? tail (fStruct rb))
  end.

(** [isEmpty()] *)
Definition isEmpty (rb : CarlaRingBuffer) : bool :=
  match fBuffer rb with
  | nullptr => false
  | member => head (fStruct rb) =? tail (fStruct rb)
  end.

(** [tryRead(buf, size)]: the result and the caller's buffer afterwards. *)
Definition tryRead (bytebuf : option (list byte)) (sz : Z)
  : M (bool * option (list byte)) := fun rb =>
  match fBuffer rb with
  | nullptr => ((false, bytebuf), rb)
  | member =>
      let fb := fStruct rb in
      match bytebuf with
      | None => ((false, bytebuf), rb)
      | Some dst =>
          if negb (0 <? sz) then ((false, bytebuf), rb)
          else if negb (sz <? size fb) then ((false, bytebuf), rb)
          else if head fb =? tail fb then ((false, bytebuf), rb)
          else
            let hd := head fb in
            let tl := tail fb in
            let wrap := if tl <? hd then 0 else size fb in
            if SizeT.sub (SizeT.add wrap hd) tl <? sz
            then ((false, bytebuf), rb)
            else
              let readto := SizeT.add tl sz in
              if size fb <? readto then
                let readto := SizeT.sub readto (size fb) in
                let firstpart := SizeT.sub (size fb) tl in
                let dst := memcpy dst 0 (storage fb) (Z.to_nat tl)
                             (Z.to_nat firstpart) in
                let dst := memcpy dst (Z.to_nat firstpart) (storage fb) 0
                             (Z.to_nat readto) in
                ((true, Some dst), set_fStruct (set_tail readto fb) rb)
              else
                let dst := memcpy dst 0 (storage fb) (Z.to_nat tl)
                             (Z.to_nat sz) in
                let readto := if readto =? size fb then 0 else readto in
                ((true, Some dst), set_fStruct (set_tail readto fb) rb)
      end
  end.

(** [tryWrite(buf, size)] *)
Definition tryWrite (bytebuf : option (list byte)) (sz : Z) : M bool :=
  fun rb =>
  match fBuffer rb with
  | nullptr => (false, rb)
  | member =>
      let fb := fStruct rb in
      match bytebuf with
      | None => (false, rb)
      | Some src =>
          if negb (0 <? sz) then (false, rb)
          else if negb (sz <? size fb) then (false, rb)
          else
            let tl := tail fb in
            let wr := wrtn fb in
            let wrap := if wr <? tl then 0 else size fb in
            if SizeT.sub (SizeT.add wrap tl) wr <=? sz
            then (false, set_fStruct (set_invalidateCommit true fb) rb)
            else
              let writeto := SizeT.add wr sz in
              if size fb <? writeto then
                let writeto := SizeT.sub writeto (size fb) in
                let firstpart := SizeT.sub (size fb) wr in
                let st := option_map
                            (fun d => memcpy d (Z.to_nat wr) src 0
                                        (Z.to_nat firstpart)) (buf fb) in
                let st := option_map
                            (fun d => memcpy d 0 src (Z.to_nat firstpart)
                                        (Z.to_nat writeto)) st in
                (true, set_fStruct (set_wrtn writeto (set_buf st fb)) rb)
              else
                let st := option_map
                            (fun d => memcpy d (Z.to_nat wr) src 0
                                        (Z.to_nat sz)) (buf fb) in
                let writeto := if writeto =? size fb then 0 else writeto in
                (true, set_fStruct (set_wrtn writeto (set_buf st fb)) rb)
      end
  end.

(* ------------------------------------------------------------------ *)
(** ** Typed readers *)

Definition bytes_of (p : option (list byte)) : list byte :=
  match p with
  | Some l => l
  | None => []
  end.

(** Modelled from the spec: [carla_zeroStruct] (CarlaUtils.hpp) is not among
    the sources; it zero-fills the whole object it is given. *)
Definition carla_zeroStruct (obj : list byte) : list byte :=
  map (fun _ => x00) obj.

(** [sizeof(bool)] is 1; a [bool] object is true when its byte is not 0. *)
Definition bool_of_bytes (l : list byte) : bool :=
  negb (from_bytes (firstn 1 l) =? 0).

Definition bytes_of_bool (b : bool) : list byte :=
  to_bytes 1 (if b then 1 else 0).

Definition readBool : M bool :=
  r <- tryRead (Some (bytes_of_bool false)) 1 ;;
  ret (if fst r then bool_of_bytes (bytes_of (snd r)) else false).

Definition readByte : M Z :=
  r <- tryRead (Some (to_bytes 1 0)) 1 ;;
  ret (if fst r then signed_of_bytes 1 (bytes_of (snd r)) else 0).

Definition readUByte : M Z :=
  r <- tryRead (Some (to_bytes 1 (-1))) 1 ;;
  let ub := signed_of_bytes 1 (bytes_of (snd r)) in
  ret (if fst r && (0 <=? ub) && (ub <=? INT_LEAST8_MAX)
       then to_unsigned 8 ub else 0).

Definition readShort : M Z :=
  r <- tryRead (Some (to_bytes 2 0)) 2 ;;
  ret (if fst r then signed_of_bytes 2 (bytes_of (snd r)) else 0).

Definition readUShort : M Z :=
  r <- tryRead (Some (to_bytes 2 (-1))) 2 ;;
  let us := signed_of_bytes 2 (bytes_of (snd r)) in
  ret (if fst r && (0 <=? us) && (us <=? INT_LEAST16_MAX)
       then to_unsigned 16 us else 0).

Definition readInt : M Z :=
  r <- tryRead (Some (to_bytes 4 0)) 4 ;;
  ret (if fst r then signed_of_bytes 4 (bytes_of (snd r)) else 0).

Definition readUInt : M Z :=
  r <- tryRead (Some (to_bytes 4 (-1))) 4 ;;
  let ui := signed_of_bytes 4 (bytes_of (snd r)) in
  ret (if fst r && (0 <=? ui) && (ui <=? INT_LEAST32_MAX)
       then to_unsigned 32 ui else 0).

Definition readLong : M Z :=
  r <- tryRead (Some (to_bytes 8 0)) 8 ;;
  ret (if fst r then signed_of_bytes 8 (bytes_of (snd r)) else 0).

Definition readULong : M Z :=
  r <- tryRead (Some (to_bytes 8 (-1))) 8 ;;
  let ul := signed_of_bytes 8 (bytes_of (snd r)) in
  ret (if fst r && (0 <=? ul) && (ul <=? INT_LEAST64_MAX)
       then to_unsigned 64 ul else 0).

(** A [float] or [double] is carried as its bit pattern; [0.0] is the
    all-zero pattern. *)
Definition readFloat : M Z :=
  r <- tryRead (Some (to_bytes 4 0)) 4 ;;
  ret (if fst r then from_bytes (firstn 4 (bytes_of (snd r))) else 0).

Definition readDouble : M Z :=
  r <- tryRead (Some (to_bytes 8 0)) 8 ;;
  ret (if fst r then from_bytes (firstn 8 (bytes_of (snd r))) else 0).

(** [readCustomData(data, size)]: the caller's buffer afterwards. *)
Definition readCustomData (data : option (list byte)) (sz : Z)
  : M (option (list byte)) :=
  r <- tryRead data sz ;;
  ret (if negb (fst r) then carla_zeroBytes (snd r) sz else snd r).

(** [readCustomType<T>(type)]: the object afterwards, [sizeof(T)] being the
    length of its representation. *)
Definition readCustomType (type : list byte) : M (list byte) :=
  r <- tryRead (Some type) (Z.of_nat (length type)) ;;
  ret (if negb (fst r) then carla_zeroStruct (bytes_of (snd r))
       else bytes_of (snd r)).

(* ------------------------------------------------------------------ *)
(** ** Typed writers *)

Definition writeBool (value : bool) : M bool :=
  tryWrite (Some (bytes_of_bool value)) 1.

Definition writeByte (value : Z) : M bool :=
  tryWrite (Some (to_bytes 1 value)) 1.

Definition writeShort (value : Z) : M bool :=
  tryWrite (Some (to_bytes 2 value)) 2.

Definition writeInt (value : Z) : M bool :=
  tryWrite (Some (to_bytes 4 value)) 4.

Definition writeLong (value : Z) : M bool :=
  tryWrite (Some (to_bytes 8 value)) 8.

Definition writeFloat (value : Z) : M bool :=
  tryWrite (Some (to_bytes 4 value)) 4.

Definition writeDouble (value : Z) : M bool :=
  tryWrite (Some (to_bytes 8 value)) 8.

Definition writeCustomData (value : option (list byte)) (sz : Z) : M bool :=
  tryWrite value sz.

Definition writeCustomType (value : list byte) : M bool :=
  tryWrite (Some value) (Z.of_nat (length value)).

(* ------------------------------------------------------------------ *)
(** ** Binding and the two wrappers *)

(** [setRingBuffer(ringBuf, reset)] *)
Definition setRingBuffer (ringBuf : ptr) (reset : bool) : M unit := fun rb =>
  if negb (negb (ptr_eqb ringBuf (fBuffer rb))) then (tt, rb)
  else
    let rb := set_fBuffer ringBuf rb in
    if reset && negb (ptr_eqb ringBuf nullptr) then clear rb else (tt, rb).

(** [new uint8_t[n]]: [n] bytes of whatever the allocator hands out. *)
Definition new_array (garbage : nat -> byte) (n : Z) : list byte :=
  map garbage (seq 0 (Z.to_nat n)).

(** [CarlaHeapRingBuffer()]: unbound; the members of [fHeapBuffer] are not
    initialised. *)
Definition CarlaHeapRingBuffer_new (indeterminate : BufferStruct)
  : CarlaRingBuffer :=
  mkRing nullptr indeterminate.

(** [CarlaHeapRingBuffer::createBuffer(size)] *)
Definition createBuffer (sz : Z) (garbage : nat -> byte) : M unit := fun rb =>
  if negb (0 <? sz) then (tt, rb)
  else
    let fb := fStruct rb in
    let fb := set_size (carla_nextPowerOf2 sz) fb in
    let fb := set_buf (Some (new_array garbage (size fb))) fb in
    setRingBuffer member true (set_fStruct fb rb).

(** [CarlaHeapRingBuffer::deleteBuffer()] *)
Definition deleteBuffer : M unit := fun rb =>
  match buf (fStruct rb) with
  | None => (tt, rb)
  | Some _ =>
      let '(_, rb) := setRingBuffer nullptr false rb in
      let fb := fStruct rb in
      let fb := set_buf None fb in
      let fb := set_size 0 fb in
      (tt, set_fStruct fb rb)
  end.

(** [CarlaStackRingBuffer()]: bound to [fStackBuffer] and cleared. *)
Definition CarlaStackRingBuffer_new (indeterminate : BufferStruct)
  (garbage : nat -> byte) : CarlaRingBuffer :=
  let fb := set_size StackBuffer_size indeterminate in
  let fb := set_buf (Some (new_array garbage StackBuffer_size)) fb in
  snd (clear (mkRing member fb)).

(* ------------------------------------------------------------------ *)
(** ** State predicates *)

Definition bound (rb : CarlaRingBuffer) : Prop := fBuffer rb = member.

Definition is_uint32 (z : Z) : Prop := 0 <= z < UINT32_MODULUS.

(** The cursor invariant of the data model. *)
Definition cursors_in_range (b : BufferStruct) : Prop :=
  0 <= head b < size b /\ 0 <= tail b < size b /\ 0 <= wrtn b < size b.

(** [buf] points at a region of [size] bytes. *)
Definition storage_ok (b : BufferStruct) : Prop :=
  exists l, buf b = Some l /\ Z.of_nat (length l) = size b.

Definition well_formed (b : BufferStruct) : Prop :=
  is_uint32 (size b) /\ cursors_in_range b /\ storage_ok b.

(** Forward distance from [a] to [b] on a ring of [cap] positions, a full
    lap when the two coincide: the number of steps, at least one, that take
    [a] to [b]. *)
Definition circular_distance (cap a b : Z) : Z :=
  let d := (b - a) mod cap in
  if d =? 0 then cap else d.

(** The free space [tryWrite] computes. *)
Definition free_space (b : BufferStruct) : Z :=
  let wrap := if wrtn b <? tail b then 0 else size b in
  SizeT.sub (SizeT.add wrap (tail b)) (wrtn b).

(** The available bytes [tryRead] computes. *)
Definition available (b : BufferStruct) : Z :=
  let wrap := if tail b <? head b then 0 else size b in
  SizeT.sub (SizeT.add wrap (head b)) (tail b).

(** Position [j] steps after [pos] on a ring of [cap] positions. *)
Definition ring_index (cap pos j : Z) : Z :=
  if pos + j <? cap then pos + j else pos + j - cap.

(** Steps from [pos] forward to [i] on a ring of [cap] positions. *)
Definition ring_offset (cap pos i : Z) : Z :=
  if pos <=? i then i - pos else i - pos + cap.

(** [n] bytes taken from the ring starting at [pos]. *)
Definition ring_get (st : list byte) (cap pos : Z) (n : nat) : list byte :=
  map (fun j => nth (Z.to_nat (ring_index cap pos (Z.of_nat j))) st x00)
      (seq 0 n).

(** The ring with the first [n] bytes of [src] put at [pos] onwards. *)
Definition ring_put (st : list byte) (cap pos : Z) (src : list byte) (n : Z)
  : list byte :=
  map (fun i =>
         let k := ring_offset cap pos (Z.of_nat i) in
         if k <? n then nth (Z.to_nat k) src x00 else nth i st x00)
      (seq 0 (length st)).

(** Positions holding committed, unread bytes. *)
Definition readable (b : BufferStruct) (i : Z) : Prop :=
  if tail b <=? head b then tail b <= i < head b
  else tail b <= i < size b \/ 0 <= i < head b.

(** A write group: the requests of the typed writers, in order. *)
Definition request : Type := (option (list byte) * Z)%type.

Fixpoint write_group (ws : list request) (rb : CarlaRingBuffer)
  : list bool * CarlaRingBuffer :=
  match ws with
  | [] => ([], rb)
  | (p, n) :: ws' =>
      let '(ok, rb1) := tryWrite p n rb in
      let '(oks, rb2) := write_group ws' rb1 in
      (ok :: oks, rb2)
  end.

(* ------------------------------------------------------------------ *)
(** ** Contracts and invariants used by the theorems *)

(** A method keeps the cursors within the capacity. *)
Definition preserves_cursors {A : Type} (m : M A) : Prop :=
  forall rb : CarlaRingBuffer,
    cursors_in_range (fStruct rb) -> cursors_in_range (fStruct (snd (m rb))).

(** The contract of an unsigned reader of [n] bytes, against the signed
    reader of the same width: [u] is the value the bytes read hold, taken
    as unsigned. *)
Definition unsigned_read_contract (n : nat) (reader signed_reader : M Z)
  : Prop :=
  forall rb : CarlaRingBuffer,
    let r := tryRead (Some (to_bytes n (-1))) (Z.of_nat n) rb in
    let ok := fst (fst r) in
    let u := from_bytes (firstn n (bytes_of (snd (fst r)))) in
    let bits := 8 * Z.of_nat n in
    snd (reader rb) = snd r /\
    snd (reader rb) = snd (signed_reader rb) /\
    (ok = false -> fst (reader rb) = 0) /\
    (ok = true -> Z.testbit u (bits - 1) = true -> fst (reader rb) = 0) /\
    (ok = true -> Z.testbit u (bits - 1) = false ->
     fst (reader rb) = u /\ 0 <= u <= 2 ^ (bits - 1) - 1).

(** The pending cursor lies on the arc from [head] forward to [tail]: it
    has not reached the unread bytes. *)
Definition pending_ok (b : BufferStruct) : Prop :=
  (tail b <= head b -> head b <= wrtn b \/ wrtn b < tail b) /\
  (head b < tail b -> head b <= wrtn b < tail b).

(** [rb] shows a reader what [rb0] shows: same binding, capacity, [head] and
    [tail], and the same bytes at the readable positions. *)
Definition same_view (rb0 rb : CarlaRingBuffer) : Prop :=
  fBuffer rb = fBuffer rb0 /\
  size (fStruct rb) = size (fStruct rb0) /\
  head (fStruct rb) = head (fStruct rb0) /\
  tail (fStruct rb) = tail (fStruct rb0) /\
  forall i : nat,
    readable (fStruct rb0) (Z.of_nat i) ->
    nth i (storage (fStruct rb)) x00 = nth i (storage (fStruct rb0)) x00.

Definition group_invariant (rb0 rb : CarlaRingBuffer) : Prop :=
  bound rb /\ well_formed (fStruct rb) /\ pending_ok (fStruct rb) /\
  same_view rb0 rb.

(** The sentence about the state queries as the specification has it:
    unbound, [isEmpty()] is false and [isDataAvailableForReading()] is
    true. *)
Definition state_queries_as_specified : Prop :=
  forall b : BufferStruct,
    isEmpty (mkRing member b) = (head b =? tail b) /\
    isDataAvailableForReading (mkRing member b) = negb (head b =? tail b) /\
    isEmpty (mkRing nullptr b) = false /\
    isDataAvailableForReading (mkRing nullptr b) = true.

(** The wrap-around sentence as the specification has it: on any bound,
    well-formed buffer, a successful write that crosses the end of the
    storage, followed (with or without [commitWrite()] in between) by a
    successful read of the same size, reads the bytes written. *)
Definition wraparound_as_specified (commit : bool) : Prop :=
  forall (rb : CarlaRingBuffer) (src dst : list byte),
    let fb := fStruct rb in
    let sz := Z.of_nat (length src) in
    bound rb -> well_formed fb -> length dst = length src ->
    size fb < wrtn fb + sz ->
    fst (tryWrite (Some src) sz rb) = true ->
    let rb1 := snd (tryWrite (Some src) sz rb) in
    let rb2 := if commit then snd (commitWrite rb1) else rb1 in
    fst (fst (tryRead (Some dst) sz rb2)) = true ->
    snd (fst (tryRead (Some dst) sz rb2)) = Some src.

(** The sentence on insufficient space as the specification has it, for
    every bound buffer: the free space is the circular distance from [wrtn]
    forward to [tail], and a request not strictly smaller than it sets
    [invalidateCommit], fails, and leaves [wrtn] and the storage alone. *)
Definition insufficient_space_as_specified : Prop :=
  forall (rb : CarlaRingBuffer) (src : list byte) (sz : Z),
    bound rb -> 0 < sz < size (fStruct rb) ->
    let fb := fStruct rb in
    free_space fb = circular_distance (size fb) (wrtn fb) (tail fb) /\
    (~ sz < circular_distance (size fb) (wrtn fb) (tail fb) ->
     tryWrite (Some src) sz rb =
     (false,
      mkRing member
        (mkBufferStruct (size fb) (head fb) (tail fb) (wrtn fb) true
           (buf fb)))).

(* ------------------------------------------------------------------ *)
(** ** Sample objects *)

Definition sample_storage : list byte :=
  [x01; x02; x03; x04; x05; x06; x00; x00].

(** Capacity 8; six bytes were committed and two of them read. *)
Definition sample_ring : CarlaRingBuffer :=
  mkRing member (mkBufferStruct 8 6 2 6 false (Some sample_storage)).

(** The same buffer in the middle of a write group that has failed. *)
Definition sample_failed_group : CarlaRingBuffer :=
  mkRing member (mkBufferStruct 8 6 2 7 true (Some sample_storage)).

Definition sample_unbound : CarlaRingBuffer :=
  mkRing nullptr (mkBufferStruct 8 6 2 6 false (Some sample_storage)).

(** Capacity 8, empty, all cursors at 6: a write of four bytes crosses the
    end. *)
Definition sample_ring_at_6 : CarlaRingBuffer :=
  mkRing member (mkBufferStruct 8 6 6 6 false (Some sample_storage)).

(** A heap ring buffer of capacity 64 holding 40 committed bytes. *)
Definition sample_heap_ring : CarlaRingBuffer :=
  let rb := CarlaHeapRingBuffer_new (mkBufferStruct 0 0 0 0 false None) in
  let rb := snd (createBuffer 64 (fun _ => xaa) rb) in
  let rb := snd (writeCustomData (Some (repeat xbb 40)) 40 rb) in
  snd (commitWrite rb).

(** A heap ring buffer created with 64 bytes, used (60 bytes written and
    committed, 28 read, 14 more written and committed, which wraps), and
    then created again with 10 bytes while still bound: capacity 16 with
    [head = wrtn = 10] and [tail = 28]. *)
Definition sample_recreated_ring : CarlaRingBuffer :=
  let rb := CarlaHeapRingBuffer_new (mkBufferStruct 0 0 0 0 false None) in
  let rb := snd (createBuffer 64 (fun _ => xaa) rb) in
  let rb := snd (writeCustomData (Some (repeat xbb 60)) 60 rb) in
  let rb := snd (commitWrite rb) in
  let rb := snd (readCustomData (Some (repeat x00 28)) 28 rb) in
  let rb := snd (writeCustomData (Some (repeat xdd 14)) 14 rb) in
  let rb := snd (commitWrite rb) in
  snd (createBuffer 10 (fun _ => xcc) rb).

(* ------------------------------------------------------------------ *)
(** ** Arithmetic and list facts *)

Ltac unfold_sizet :=
  unfold SizeT.add, SizeT.sub, SizeT.wrap, SizeT.modulus, UINT32_MODULUS in *.

Ltac zsolve := unfold_sizet; Z.div_mod_to_equations; lia.

Ltac zbool :=
  repeat match goal with
  | H : negb _ = true |- _ => apply negb_true_iff in H
  | H : negb _ = false |- _ => apply negb_false_iff in H
  | H : (_ <? _) = true |- _ => apply Z.ltb_lt in H
  | H : (_ <? _) = false |- _ => apply Z.ltb_ge in H
  | H : (_ <=? _) = true |- _ => apply Z.leb_le in H
  | H : (_ <=? _) = false |- _ => apply Z.leb_gt in H
  | H : (_ =? _) = true |- _ => apply Z.eqb_eq in H
  | H : (_ =? _) = false |- _ => apply Z.eqb_neq in H
  end.

Ltac splits := repeat match goal with |- _ /\ _ => split end.

Ltac split_ifs :=
  repeat match goal with
  | |- context [if ?c then _ else _] => destruct c eqn:?
  end.

Lemma SizeT_wrap_small (z : Z) :
  0 <= z < SizeT.modulus -> SizeT.wrap z = z.
Proof. intros H. unfold SizeT.wrap. apply Z.mod_small. exact H. Qed.

Lemma SizeT_add_small (a b : Z) :
  0 <= a + b < SizeT.modulus -> SizeT.add a b = a + b.
Proof. intros H. unfold SizeT.add. now apply SizeT_wrap_small. Qed.

Lemma SizeT_sub_small (a b : Z) :
  0 <= a - b < SizeT.modulus -> SizeT.sub a b = a - b.
Proof. intros H. unfold SizeT.sub. now apply SizeT_wrap_small. Qed.

Lemma nth_map_seq (f : nat -> byte) (len i : nat) (d : byte) :
  (i < len)%nat -> nth i (map f (seq 0 len)) d = f i.
Proof.
  intros H.
  rewrite (nth_indep _ d (f 0%nat)) by (rewrite length_map, length_seq; exact H).
  rewrite map_nth, seq_nth by exact H.
  reflexivity.
Qed.

Lemma memcpy_length dst doff src soff n :
  length (memcpy dst doff src soff n) = length dst.
Proof. unfold memcpy. now rewrite length_map, length_seq. Qed.

Lemma memcpy_nth_inside dst doff src soff n i :
  (i < length dst)%nat -> (doff <= i < doff + n)%nat ->
  (soff + (i - doff) < length src)%nat ->
  nth i (memcpy dst doff src soff n) x00 = nth (soff + (i - doff)) src x00.
Proof.
  intros Hi Hr Hs. unfold memcpy. rewrite nth_map_seq by exact Hi.
  replace (doff <=? i)%nat with true by (symmetry; apply Nat.leb_le; lia).
  replace (i <? doff + n)%nat with true by (symmetry; apply Nat.ltb_lt; lia).
  simpl. apply nth_indep. exact Hs.
Qed.

Lemma memcpy_nth_outside dst doff src soff n i :
  ~ (doff <= i < doff + n)%nat ->
  nth i (memcpy dst doff src soff n) x00 = nth i dst x00.
Proof.
  intros Hr. destruct (Nat.lt_ge_cases i (length dst)) as [Hi | Hi].
  - unfold memcpy. rewrite nth_map_seq by exact Hi.
    destruct (doff <=? i)%nat eqn:E1; [|reflexivity].
    destruct (i <? doff + n)%nat eqn:E2; [|reflexivity].
    apply Nat.leb_le in E1. apply Nat.ltb_lt in E2. lia.
  - rewrite !nth_overflow; [reflexivity | exact Hi |].
    rewrite memcpy_length. exact Hi.
Qed.

Lemma ring_get_length st cap pos n : length (ring_get st cap pos n) = n.
Proof. unfold ring_get. now rewrite length_map, length_seq. Qed.

Lemma ring_put_length st cap pos src n :
  length (ring_put st cap pos src n) = length st.
Proof. unfold ring_put. now rewrite length_map, length_seq. Qed.

Lemma ring_put_nth st cap pos src n i :
  (i < length st)%nat ->
  nth i (ring_put st cap pos src n) x00 =
  if ring_offset cap pos (Z.of_nat i) <? n
  then nth (Z.to_nat (ring_offset cap pos (Z.of_nat i))) src x00
  else nth i st x00.
Proof. intros Hi. unfold ring_put. now rewrite nth_map_seq. Qed.

Lemma ring_get_nth st cap pos n j :
  (j < n)%nat ->
  nth j (ring_get st cap pos n) x00 =
  nth (Z.to_nat (ring_index cap pos (Z.of_nat j))) st x00.
Proof. intros Hj. unfold ring_get. now rewrite nth_map_seq. Qed.

(** What was put into the ring is what comes out of it. *)
Lemma ring_get_put st cap pos src n :
  Z.of_nat (length st) = cap -> 0 <= pos < cap ->
  (n <= length src)%nat -> Z.of_nat n < cap ->
  ring_get (ring_put st cap pos src (Z.of_nat n)) cap pos n = firstn n src.
Proof.
  intros Hlen Hpos Hsrc Hn.
  apply (nth_ext _ _ x00 x00).
  - rewrite ring_get_length, length_firstn. lia.
  - intros j Hj. rewrite ring_get_length in Hj.
    rewrite ring_get_nth by exact Hj.
    rewrite ring_put_nth
      by (unfold ring_index; destruct (pos + Z.of_nat j <? cap) eqn:E; lia).
    rewrite nth_firstn.
    replace (j <? n)%nat with true by (symmetry; apply Nat.ltb_lt; lia).
    assert (Hoff : ring_offset cap pos
              (Z.of_nat (Z.to_nat (ring_index cap pos (Z.of_nat j))))
            = Z.of_nat j).
    { unfold ring_offset, ring_index.
      destruct (pos + Z.of_nat j <? cap) eqn:E.
      - rewrite Z2Nat.id by lia.
        destruct (pos <=? pos + Z.of_nat j) eqn:E1; lia.
      - rewrite Z2Nat.id by lia.
        destruct (pos <=? pos + Z.of_nat j - cap) eqn:E1; lia. }
    rewrite Hoff.
    replace (Z.of_nat j <? Z.of_nat n) with true by (symmetry; apply Z.ltb_lt; lia).
    now rewrite Nat2Z.id.
Qed.

(* ------------------------------------------------------------------ *)
(** ** The two primitives on well-formed states *)

(** The copy of [tryWrite], one or two [memcpy] calls, is a put into the
    ring. *)
Lemma write_copy_is_ring_put st cap wr src sz :
  Z.of_nat (length st) = cap -> 0 <= wr < cap -> 0 < sz < cap ->
  sz <= Z.of_nat (length src) ->
  (cap < wr + sz ->
   memcpy (memcpy st (Z.to_nat wr) src 0 (Z.to_nat (cap - wr)))
          0 src (Z.to_nat (cap - wr)) (Z.to_nat (wr + sz - cap))
   = ring_put st cap wr src sz) /\
  (wr + sz <= cap ->
   memcpy st (Z.to_nat wr) src 0 (Z.to_nat sz) = ring_put st cap wr src sz).
Proof.
  intros Hlen Hwr Hsz Hsrc. split; intros Hcross.
  - apply (nth_ext _ _ x00 x00).
    + now rewrite !memcpy_length, ring_put_length.
    + intros i Hi. rewrite !memcpy_length in Hi.
      rewrite ring_put_nth by exact Hi. unfold ring_offset.
      destruct (Z.of_nat i <? wr + sz - cap) eqn:E1.
      * apply Z.ltb_lt in E1.
        rewrite memcpy_nth_inside by (rewrite ?memcpy_length; lia).
        destruct (wr <=? Z.of_nat i) eqn:E2; [lia|].
        replace (Z.of_nat i - wr + cap <? sz) with true
          by (symmetry; apply Z.ltb_lt; lia).
        f_equal. lia.
      * apply Z.ltb_ge in E1.
        rewrite memcpy_nth_outside by lia.
        destruct (wr <=? Z.of_nat i) eqn:E2.
        -- apply Z.leb_le in E2.
           rewrite memcpy_nth_inside by lia.
           replace (Z.of_nat i - wr <? sz) with true
             by (symmetry; apply Z.ltb_lt; lia).
           f_equal. lia.
        -- apply Z.leb_gt in E2.
           rewrite memcpy_nth_outside by lia.
           replace (Z.of_nat i - wr + cap <? sz) with false
             by (symmetry; apply Z.ltb_ge; lia).
           reflexivity.
  - apply (nth_ext _ _ x00 x00).
    + now rewrite !memcpy_length, ring_put_length.
    + intros i Hi. rewrite !memcpy_length in Hi.
      rewrite ring_put_nth by exact Hi. unfold ring_offset.
      destruct (wr <=? Z.of_nat i) eqn:E2.
      * apply Z.leb_le in E2.
        destruct (Z.of_nat i - wr <? sz) eqn:E3.
        -- apply Z.ltb_lt in E3.
           rewrite memcpy_nth_inside by lia. f_equal. lia.
        -- apply Z.ltb_ge in E3.
           rewrite memcpy_nth_outside by lia. reflexivity.
      * apply Z.leb_gt in E2.
        replace (Z.of_nat i - wr + cap <? sz) with false
          by (symmetry; apply Z.ltb_ge; lia).
        rewrite memcpy_nth_outside by lia. reflexivity.
Qed.

(** The copy of [tryRead] takes from the ring into the front of the
    caller's buffer. *)
Lemma read_copy_is_ring_get st cap tl dst sz :
  Z.of_nat (length st) = cap -> 0 <= tl < cap -> 0 < sz < cap ->
  sz <= Z.of_nat (length dst) ->
  (cap < tl + sz ->
   memcpy (memcpy dst 0 st (Z.to_nat tl) (Z.to_nat (cap - tl)))
          (Z.to_nat (cap - tl)) st 0 (Z.to_nat (tl + sz - cap))
   = ring_get st cap tl (Z.to_nat sz) ++ skipn (Z.to_nat sz) dst) /\
  (tl + sz <= cap ->
   memcpy dst 0 st (Z.to_nat tl) (Z.to_nat sz)
   = ring_get st cap tl (Z.to_nat sz) ++ skipn (Z.to_nat sz) dst).
Proof.
  intros Hlen Htl Hsz Hdst.
  assert (Hl : forall l : list byte,
             length l = length dst ->
             length l =
             length (ring_get st cap tl (Z.to_nat sz) ++ skipn (Z.to_nat sz) dst)).
  { intros l ->. rewrite length_app, ring_get_length, length_skipn. lia. }
  split; intros Hcross.
  - apply (nth_ext _ _ x00 x00).
    + apply Hl. now rewrite !memcpy_length.
    + intros i Hi. rewrite !memcpy_length in Hi.
      destruct (Nat.lt_ge_cases i (Z.to_nat sz)) as [Hlt | Hge].
      * rewrite app_nth1 by (rewrite ring_get_length; exact Hlt).
        rewrite ring_get_nth by exact Hlt. unfold ring_index.
        destruct (tl + Z.of_nat i <? cap) eqn:E1.
        -- apply Z.ltb_lt in E1.
           rewrite memcpy_nth_outside by lia.
           rewrite memcpy_nth_inside by lia. f_equal. lia.
        -- apply Z.ltb_ge in E1.
           rewrite memcpy_nth_inside by (rewrite ?memcpy_length; lia).
           f_equal. lia.
      * rewrite app_nth2 by (rewrite ring_get_length; exact Hge).
        rewrite ring_get_length, nth_skipn.
        rewrite !memcpy_nth_outside by lia. f_equal. lia.
  - apply (nth_ext _ _ x00 x00).
    + apply Hl. now rewrite !memcpy_length.
    + intros i Hi. rewrite !memcpy_length in Hi.
      destruct (Nat.lt_ge_cases i (Z.to_nat sz)) as [Hlt | Hge].
      * rewrite app_nth1 by (rewrite ring_get_length; exact Hlt).
        rewrite ring_get_nth by exact Hlt. unfold ring_index.
        replace (tl + Z.of_nat i <? cap) with true
          by (symmetry; apply Z.ltb_lt; lia).
        rewrite memcpy_nth_inside by lia. f_equal. lia.
      * rewrite app_nth2 by (rewrite ring_get_length; exact Hge).
        rewrite ring_get_length, nth_skipn.
        rewrite !memcpy_nth_outside by lia. f_equal. lia.
Qed.

Lemma free_space_in_range b :
  is_uint32 (size b) -> cursors_in_range b ->
  free_space b =
  if wrtn b <? tail b then tail b - wrtn b else size b + tail b - wrtn b.
Proof.
  intros Hs (Hh & Ht & Hw). unfold free_space, is_uint32 in *.
  destruct (wrtn b <? tail b) eqn:E;
    [apply Z.ltb_lt in E | apply Z.ltb_ge in E];
    rewrite SizeT_add_small, SizeT_sub_small; zsolve.
Qed.

Lemma available_in_range b :
  is_uint32 (size b) -> cursors_in_range b ->
  available b =
  if tail b <? head b then head b - tail b else size b + head b - tail b.
Proof.
  intros Hs (Hh & Ht & Hw). unfold available, is_uint32 in *.
  destruct (tail b <? head b) eqn:E;
    [apply Z.ltb_lt in E | apply Z.ltb_ge in E];
    rewrite SizeT_add_small, SizeT_sub_small; zsolve.
Qed.

(** No copy of [tryWrite] leaves the storage or the caller's bytes on a
    well-formed state: the ranges of its [memcpy] calls. *)
Lemma memcpy_in_bounds_write b sz :
  is_uint32 (size b) -> cursors_in_range b -> 0 < sz < size b ->
  let writeto := SizeT.add (wrtn b) sz in
  let firstpart := SizeT.sub (size b) (wrtn b) in
  (size b < writeto ->
   wrtn b + firstpart = size b /\
   firstpart + SizeT.sub writeto (size b) = sz /\
   0 <= SizeT.sub writeto (size b) <= size b) /\
  (writeto <= size b -> 0 <= wrtn b /\ wrtn b + sz <= size b).
Proof.
  intros Hs (Hh & Ht & Hw) Hsz. unfold is_uint32 in *. cbv zeta.
  rewrite SizeT_add_small by zsolve.
  split; intros Hcross.
  - rewrite !SizeT_sub_small by zsolve. lia.
  - lia.
Qed.

(** The same for [tryRead]. *)
Lemma memcpy_in_bounds_read b sz :
  is_uint32 (size b) -> cursors_in_range b -> 0 < sz < size b ->
  let readto := SizeT.add (tail b) sz in
  let firstpart := SizeT.sub (size b) (tail b) in
  (size b < readto ->
   tail b + firstpart = size b /\
   firstpart + SizeT.sub readto (size b) = sz /\
   0 <= SizeT.sub readto (size b) <= size b) /\
  (readto <= size b -> 0 <= tail b /\ tail b + sz <= size b).
Proof.
  intros Hs (Hh & Ht & Hw) Hsz. unfold is_uint32 in *. cbv zeta.
  rewrite SizeT_add_small by zsolve.
  split; intros Hcross.
  - rewrite !SizeT_sub_small by zsolve. lia.
  - lia.
Qed.

(** [tryWrite] on a well-formed bound state, in terms of the ring. *)
Lemma tryWrite_well_formed rb src sz :
  bound rb -> well_formed (fStruct rb) ->
  0 < sz < size (fStruct rb) -> sz <= Z.of_nat (length src) ->
  let fb := fStruct rb in
  tryWrite (Some src) sz rb =
  if (if wrtn fb <? tail fb then tail fb - wrtn fb
      else size fb + tail fb - wrtn fb) <=? sz
  then (false, set_fStruct (set_invalidateCommit true fb) rb)
  else (true,
        set_fStruct
          (set_wrtn (ring_index (size fb) (wrtn fb) sz)
             (set_buf (Some (ring_put (storage fb) (size fb) (wrtn fb) src sz))
                fb)) rb).
Proof.
  intros Hb (Hs & Hc & (st & Hst & Hlen)) Hsz Hsrc fb.
  pose proof (free_space_in_range _ Hs Hc) as Hfree.
  destruct Hc as (Hh & Ht & Hw). unfold is_uint32 in Hs.
  unfold tryWrite. rewrite Hb. fold fb.
  unfold free_space in Hfree. fold fb in Hfree, Hs, Hh, Ht, Hw, Hsz, Hst, Hlen.
  replace (0 <? sz) with true by (symmetry; apply Z.ltb_lt; lia).
  replace (sz <? size fb) with true by (symmetry; apply Z.ltb_lt; lia).
  cbn [negb]. rewrite Hfree.
  destruct (_ <=? sz) eqn:Efree; [reflexivity|].
  rewrite SizeT_add_small by zsolve.
  unfold storage, ring_index. fold fb. rewrite Hst. cbn [option_map].
  destruct (write_copy_is_ring_put st (size fb) (wrtn fb) src sz)
    as [Hwrap Hflat]; try lia.
  destruct (size fb <? wrtn fb + sz) eqn:Ecross.
  - apply Z.ltb_lt in Ecross.
    rewrite !SizeT_sub_small by zsolve.
    rewrite Hwrap by lia.
    replace (wrtn fb + sz <? size fb) with false
      by (symmetry; apply Z.ltb_ge; lia).
    reflexivity.
  - apply Z.ltb_ge in Ecross. rewrite Hflat by lia.
    destruct (wrtn fb + sz =? size fb) eqn:Eeq.
    + apply Z.eqb_eq in Eeq.
      replace (wrtn fb + sz <? size fb) with false
        by (symmetry; apply Z.ltb_ge; lia).
      do 3 f_equal. unfold set_wrtn. cbn. f_equal. lia.
    + apply Z.eqb_neq in Eeq.
      replace (wrtn fb + sz <? size fb) with true
        by (symmetry; apply Z.ltb_lt; lia).
      reflexivity.
Qed.

(** [tryRead] on a well-formed bound state, in terms of the ring. *)
Lemma tryRead_well_formed rb dst sz :
  bound rb -> well_formed (fStruct rb) ->
  0 < sz < size (fStruct rb) -> sz <= Z.of_nat (length dst) ->
  let fb := fStruct rb in
  tryRead (Some dst) sz rb =
  if (head fb =? tail fb) ||
     ((if tail fb <? head fb then head fb - tail fb
       else size fb + head fb - tail fb) <? sz)
  then ((false, Some dst), rb)
  else ((true,
         Some (ring_get (storage fb) (size fb) (tail fb) (Z.to_nat sz)
                 ++ skipn (Z.to_nat sz) dst)),
        set_fStruct (set_tail (ring_index (size fb) (tail fb) sz) fb) rb).
Proof.
  intros Hb (Hs & Hc & (st & Hst & Hlen)) Hsz Hdst fb.
  pose proof (available_in_range _ Hs Hc) as Hav.
  destruct Hc as (Hh & Ht & Hw). unfold is_uint32 in Hs.
  unfold tryRead. rewrite Hb. fold fb.
  unfold available in Hav. fold fb in Hav, Hs, Hh, Ht, Hw, Hsz, Hst, Hlen.
  replace (0 <? sz) with true by (symmetry; apply Z.ltb_lt; lia).
  replace (sz <? size fb) with true by (symmetry; apply Z.ltb_lt; lia).
  cbn [negb]. rewrite Hav.
  destruct (head fb =? tail fb) eqn:Eempty; [reflexivity|].
  cbn [orb].
  destruct (_ <? sz) eqn:Eav; [reflexivity|].
  rewrite SizeT_add_small by zsolve.
  unfold storage, ring_index. fold fb. rewrite Hst.
  destruct (read_copy_is_ring_get st (size fb) (tail fb) dst sz)
    as [Hwrap Hflat]; try lia.
  destruct (size fb <? tail fb + sz) eqn:Ecross.
  - apply Z.ltb_lt in Ecross.
    rewrite !SizeT_sub_small by zsolve.
    rewrite Hwrap by lia.
    replace (tail fb + sz <? size fb) with false
      by (symmetry; apply Z.ltb_ge; lia).
    reflexivity.
  - apply Z.ltb_ge in Ecross. rewrite Hflat by lia.
    destruct (tail fb + sz =? size fb) eqn:Eeq.
    + apply Z.eqb_eq in Eeq.
      replace (tail fb + sz <? size fb) with false
        by (symmetry; apply Z.ltb_ge; lia).
      do 3 f_equal. lia.
    + apply Z.eqb_neq in Eeq.
      replace (tail fb + sz <? size fb) with true
        by (symmetry; apply Z.ltb_lt; lia).
      reflexivity.
Qed.

(* ------------------------------------------------------------------ *)
(** ** commitWrite *)

(** C1: on a bound buffer [commitWrite()] rolls back when the failure flag
    is set ([wrtn := head], flag cleared, failure); otherwise it fails
    without any change when [head == wrtn]; otherwise it publishes
    ([head := wrtn]) and succeeds. *)
Theorem commitWrite_cases (rb : CarlaRingBuffer) :
  bound rb ->
  let fb := fStruct rb in
  (invalidateCommit fb = true ->
   commitWrite rb =
   (false,
    mkRing member
      (mkBufferStruct (size fb) (head fb) (tail fb) (head fb) false (buf fb))))
  /\ (invalidateCommit fb = false -> head fb = wrtn fb ->
      commitWrite rb = (false, rb))
  /\ (invalidateCommit fb = false -> head fb <> wrtn fb ->
      commitWrite rb =
      (true,
       mkRing member
         (mkBufferStruct (size fb) (wrtn fb) (tail fb) (wrtn fb) false
            (buf fb)))).
Proof.
  intros Hb fb. unfold commitWrite, set_fStruct. rewrite Hb. fold fb.
  repeat split.
  - intros ->. reflexivity.
  - intros -> Heq. apply Z.eqb_eq in Heq. rewrite Heq. reflexivity.
  - intros Hflag Hne. rewrite Hflag. apply Z.eqb_neq in Hne. rewrite Hne.
    cbn. unfold set_head. rewrite Hflag. reflexivity.
Qed.

Lemma commitWrite_cases_witness :
  bound sample_failed_group /\
  commitWrite sample_failed_group = (false, sample_ring).
Proof.
  split; [reflexivity|].
  exact (proj1 (commitWrite_cases sample_failed_group eq_refl) eq_refl).
Defined.

(* ------------------------------------------------------------------ *)
(** ** State queries *)

(** C6, as stated, fails: an unbound engine reports no data available. *)
Lemma state_queries_as_specified_fails : ~ state_queries_as_specified.
Proof.
  intros H. destruct (H (fStruct sample_unbound)) as (_ & _ & _ & Habs).
  discriminate Habs.
Qed.

(** C6 (amended): bound, [isEmpty()] is [head == tail] and
    [isDataAvailableForReading()] is [head != tail]; unbound, both return
    false. *)
Theorem state_queries (b : BufferStruct) :
  isEmpty (mkRing member b) = (head b =? tail b) /\
  isDataAvailableForReading (mkRing member b) = negb (head b =? tail b) /\
  isEmpty (mkRing nullptr b) = false /\
  isDataAvailableForReading (mkRing nullptr b) = false.
Proof. repeat split. Qed.

(* ------------------------------------------------------------------ *)
(** ** Rejected requests *)

(** C7: a primitive read or write on an unbound engine, with a null data
    pointer, with size 0 or with a size of at least the capacity fails and
    leaves the whole object, and the caller's buffer, as they were. *)
Theorem invalid_request_rejected
  (rb : CarlaRingBuffer) (bytebuf : option (list byte)) (sz : Z) :
  fBuffer rb = nullptr \/ bytebuf = None \/ sz = 0 \/ size (fStruct rb) <= sz ->
  tryRead bytebuf sz rb = ((false, bytebuf), rb) /\
  tryWrite bytebuf sz rb = (false, rb).
Proof.
  intros H. unfold tryRead, tryWrite.
  destruct (fBuffer rb); [split; reflexivity|].
  destruct bytebuf as [d|]; [|split; reflexivity].
  destruct (0 <? sz) eqn:Epos; [|split; reflexivity].
  destruct (sz <? size (fStruct rb)) eqn:Ecap; [|split; reflexivity].
  apply Z.ltb_lt in Epos. apply Z.ltb_lt in Ecap.
  destruct H as [H | [H | [H | H]]]; try discriminate; lia.
Qed.

Lemma invalid_request_rejected_witness :
  size (fStruct sample_ring) <= 8 /\
  tryRead (Some (to_bytes 8 0)) 8 sample_ring
  = ((false, Some (to_bytes 8 0)), sample_ring) /\
  tryWrite (Some (to_bytes 8 0)) 8 sample_ring = (false, sample_ring).
Proof.
  split; [simpl; lia|].
  apply (invalid_request_rejected sample_ring (Some (to_bytes 8 0)) 8).
  right. right. right. simpl. lia.
Defined.

(* ------------------------------------------------------------------ *)
(** ** Insufficient space *)

Lemma circular_distance_in_range cap a b :
  0 <= a < cap -> 0 <= b < cap ->
  circular_distance cap a b = if a <? b then b - a else cap + b - a.
Proof.
  intros Ha Hb. unfold circular_distance.
  destruct (a <? b) eqn:E.
  - apply Z.ltb_lt in E. rewrite Z.mod_small by lia.
    destruct (b - a =? 0) eqn:E0; [apply Z.eqb_eq in E0; lia | reflexivity].
  - apply Z.ltb_ge in E.
    destruct (Z.eq_dec a b) as [-> | Hne].
    + rewrite Z.sub_diag, Z.mod_0_l by lia. cbn. lia.
    + replace (b - a) with (cap + b - a + (-1) * cap) by lia.
      rewrite Z.mod_add by lia. rewrite Z.mod_small by lia.
      destruct (cap + b - a =? 0) eqn:E0;
        [apply Z.eqb_eq in E0; lia | reflexivity].
Qed.

(** On every bound buffer, whatever its cursors: a request that is not
    strictly smaller than the free space [tryWrite] computes sets
    [invalidateCommit], fails, and leaves [wrtn] and the storage alone. *)
Lemma tryWrite_rejects_when_full
  (rb : CarlaRingBuffer) (src : list byte) (sz : Z) :
  bound rb -> 0 < sz < size (fStruct rb) ->
  ~ sz < free_space (fStruct rb) ->
  tryWrite (Some src) sz rb =
  (false,
   mkRing member
     (mkBufferStruct (size (fStruct rb)) (head (fStruct rb))
        (tail (fStruct rb)) (wrtn (fStruct rb)) true (buf (fStruct rb)))).
Proof.
  intros Hb Hsz Hfull. unfold tryWrite. rewrite Hb.
  replace (0 <? sz) with true by (symmetry; apply Z.ltb_lt; lia).
  replace (sz <? size (fStruct rb)) with true
    by (symmetry; apply Z.ltb_lt; lia).
  cbn [negb]. unfold free_space in Hfull. cbv zeta in Hfull.
  replace (_ <=? sz) with true by (symmetry; apply Z.leb_le; lia).
  unfold set_fStruct, set_invalidateCommit. now rewrite Hb.
Qed.

Lemma sample_recreated_ring_state :
  sample_recreated_ring =
  mkRing member (mkBufferStruct 16 10 28 10 false (Some (repeat xcc 16))).
Proof. vm_compute. reflexivity. Qed.

(** C3, as stated, fails: [createBuffer] on a bound engine keeps the
    cursors, so a bound buffer can have [tail] beyond its capacity.  At
    capacity 16 with [wrtn = 10] and [tail = 28] the free space computed is
    18, the circular distance is 2, and a write of 5 bytes is accepted. *)
Lemma insufficient_space_as_specified_fails :
  ~ insufficient_space_as_specified.
Proof.
  intros H.
  destruct (H sample_recreated_ring (to_bytes 5 0) 5 eq_refl
              (conj eq_refl eq_refl)) as [Hfree Hfail].
  assert (Hfull : ~ 5 < circular_distance
                        (size (fStruct sample_recreated_ring))
                        (wrtn (fStruct sample_recreated_ring))
                        (tail (fStruct sample_recreated_ring)))
    by (vm_compute; discriminate).
  specialize (Hfail Hfull). vm_compute in Hfail. discriminate Hfail.
Qed.

(** C3 (amended): for a bound buffer whose cursors lie within its capacity
    ([0 <= head, tail, wrtn < capacity], the capacity a [uint32_t]) and a
    request with a non-null source and [0 < size < capacity], the free
    space [tryWrite] computes is the circular distance from [wrtn] forward
    to [tail], and a request that is not strictly smaller than it sets
    [invalidateCommit], fails, and leaves [wrtn] and the storage alone. *)
Theorem tryWrite_insufficient_space
  (rb : CarlaRingBuffer) (src : list byte) (sz : Z) :
  bound rb -> is_uint32 (size (fStruct rb)) ->
  cursors_in_range (fStruct rb) -> 0 < sz < size (fStruct rb) ->
  let fb := fStruct rb in
  free_space fb = circular_distance (size fb) (wrtn fb) (tail fb) /\
  (~ sz < circular_distance (size fb) (wrtn fb) (tail fb) ->
   tryWrite (Some src) sz rb =
   (false,
    mkRing member
      (mkBufferStruct (size fb) (head fb) (tail fb) (wrtn fb) true (buf fb)))).
Proof.
  intros Hb Hs Hc Hsz. cbv zeta.
  assert (Hfree : free_space (fStruct rb) =
                  circular_distance (size (fStruct rb)) (wrtn (fStruct rb))
                    (tail (fStruct rb))).
  { rewrite free_space_in_range by assumption.
    destruct Hc as (_ & Ht & Hw).
    now rewrite circular_distance_in_range by assumption. }
  split; [exact Hfree|].
  intros Hfull. rewrite <- Hfree in Hfull.
  now apply tryWrite_rejects_when_full.
Qed.

Lemma tryWrite_insufficient_space_witness :
  free_space (fStruct sample_ring) = circular_distance 8 6 2 /\
  circular_distance 8 6 2 = 4 /\
  tryWrite (Some (to_bytes 4 7)) 4 sample_ring =
  (false,
   mkRing member (mkBufferStruct 8 6 2 6 true (Some sample_storage))).
Proof.
  assert (Hs : is_uint32 (size (fStruct sample_ring)))
    by (unfold is_uint32, UINT32_MODULUS; simpl; lia).
  assert (Hc : cursors_in_range (fStruct sample_ring))
    by (unfold cursors_in_range; simpl; lia).
  destruct (tryWrite_insufficient_space sample_ring (to_bytes 4 7) 4
              eq_refl Hs Hc (conj eq_refl eq_refl)) as [Hfree Hfail].
  split; [exact Hfree|]. split; [reflexivity|].
  apply Hfail. vm_compute. discriminate.
Defined.

(* ------------------------------------------------------------------ *)
(** ** The cursor invariant *)

Lemma snd_bind_ret {A B : Type} (m : M A) (f : A -> B) (rb : CarlaRingBuffer) :
  snd ((x <- m ;; ret (f x)) rb) = snd (m rb).
Proof. unfold bind, ret. destruct (m rb). reflexivity. Qed.

Lemma fst_bind_ret {A B : Type} (m : M A) (f : A -> B) (rb : CarlaRingBuffer) :
  fst ((x <- m ;; ret (f x)) rb) = f (fst (m rb)).
Proof. unfold bind, ret. destruct (m rb). reflexivity. Qed.

Lemma clear_preserves : preserves_cursors clear.
Proof.
  intros rb Hc. unfold clear. destruct (fBuffer rb); [exact Hc|].
  unfold cursors_in_range in *. cbn. lia.
Qed.

Lemma commitWrite_preserves : preserves_cursors commitWrite.
Proof.
  intros rb Hc. unfold commitWrite. destruct (fBuffer rb); [exact Hc|].
  unfold cursors_in_range in *. split_ifs; cbn; lia.
Qed.

Lemma tryRead_preserves p n : preserves_cursors (tryRead p n).
Proof.
  intros rb Hc. unfold tryRead. destruct (fBuffer rb); [exact Hc|].
  destruct p as [dst|]; [|exact Hc].
  unfold cursors_in_range in *.
  split_ifs; cbn; zbool; try lia; zsolve.
Qed.

Lemma tryWrite_preserves p n : preserves_cursors (tryWrite p n).
Proof.
  intros rb Hc. unfold tryWrite. destruct (fBuffer rb); [exact Hc|].
  destruct p as [src|]; [|exact Hc].
  unfold cursors_in_range in *.
  split_ifs; cbn; zbool; try lia; zsolve.
Qed.

(** C5: started with [0 <= head, tail, wrtn < capacity], every engine
    operation ([clear], [commitWrite], [tryRead], [tryWrite] and each typed
    reader and writer) ends with [0 <= head, tail, wrtn < capacity]. *)
Theorem cursor_invariant_preserved :
  preserves_cursors clear /\
  preserves_cursors commitWrite /\
  (forall p n, preserves_cursors (tryRead p n)) /\
  (forall p n, preserves_cursors (tryWrite p n)) /\
  (preserves_cursors readBool /\ preserves_cursors readByte /\
   preserves_cursors readUByte /\ preserves_cursors readShort /\
   preserves_cursors readUShort /\ preserves_cursors readInt /\
   preserves_cursors readUInt /\ preserves_cursors readLong /\
   preserves_cursors readULong /\ preserves_cursors readFloat /\
   preserves_cursors readDouble /\
   (forall data n, preserves_cursors (readCustomData data n)) /\
   (forall type, preserves_cursors (readCustomType type))) /\
  ((forall v, preserves_cursors (writeBool v)) /\
   (forall v, preserves_cursors (writeByte v)) /\
   (forall v, preserves_cursors (writeShort v)) /\
   (forall v, preserves_cursors (writeInt v)) /\
   (forall v, preserves_cursors (writeLong v)) /\
   (forall v, preserves_cursors (writeFloat v)) /\
   (forall v, preserves_cursors (writeDouble v)) /\
   (forall value n, preserves_cursors (writeCustomData value n)) /\
   (forall value, preserves_cursors (writeCustomType value))).
Proof.
  split; [exact clear_preserves|].
  split; [exact commitWrite_preserves|].
  split; [exact tryRead_preserves|].
  split; [exact tryWrite_preserves|].
  split.
  - repeat match goal with |- _ /\ _ => split end;
      unfold preserves_cursors; intros;
      unfold readBool, readByte, readUByte, readShort, readUShort, readInt,
        readUInt, readLong, readULong, readFloat, readDouble, readCustomData,
        readCustomType, bind, ret;
      match goal with
      | Hc : cursors_in_range (fStruct ?rb) |- context [tryRead ?p ?n ?rb] =>
          pose proof (tryRead_preserves p n rb Hc) as Hp;
          destruct (tryRead p n rb) as [r rb']
      end; exact Hp.
  - repeat match goal with |- _ /\ _ => split end;
      intros; apply tryWrite_preserves.
Qed.

Lemma cursor_invariant_preserved_witness :
  cursors_in_range (fStruct sample_ring) /\
  cursors_in_range
    (fStruct (snd (tryWrite (Some (to_bytes 3 7)) 3 sample_ring))) /\
  cursors_in_range (fStruct (snd (readUShort sample_ring))).
Proof.
  assert (H : cursors_in_range (fStruct sample_ring))
    by (unfold cursors_in_range; simpl; lia).
  destruct cursor_invariant_preserved
    as (_ & _ & _ & Hw & (_ & _ & _ & _ & Hus & _) & _).
  split; [exact H|]. split; [apply Hw; exact H | apply Hus; exact H].
Defined.

(* ------------------------------------------------------------------ *)
(** ** Unsigned readers *)

Lemma Z_of_byte_range (b : byte) : 0 <= Z_of_byte b < 256.
Proof.
  unfold Z_of_byte. pose proof (Byte.to_N_bounded b) as H. lia.
Qed.

Lemma from_bytes_range (l : list byte) :
  0 <= from_bytes l < 256 ^ Z.of_nat (length l).
Proof.
  induction l as [|b t IH].
  - cbn. lia.
  - cbn [from_bytes length]. rewrite Nat2Z.inj_succ, Z.pow_succ_r by lia.
    pose proof (Z_of_byte_range b). lia.
Qed.

Lemma from_bytes_firstn_range (n : nat) (l : list byte) :
  0 <= from_bytes (firstn n l) < 2 ^ (8 * Z.of_nat n).
Proof.
  pose proof (from_bytes_range (firstn n l)) as H.
  rewrite Z.pow_mul_r by lia. change (2 ^ 8) with 256.
  assert (Hlen : (length (firstn n l) <= n)%nat)
    by (rewrite length_firstn; lia).
  assert (256 ^ Z.of_nat (length (firstn n l)) <= 256 ^ Z.of_nat n)
    by (apply Z.pow_le_mono_r; lia).
  lia.
Qed.

(** The top bit of a [bits]-wide value decides the sign of its two's
    complement reading. *)
Lemma sign_bit_spec (bits u : Z) :
  0 < bits -> 0 <= u < 2 ^ bits ->
  (Z.testbit u (bits - 1) = true -> to_signed bits u < 0) /\
  (Z.testbit u (bits - 1) = false ->
   to_signed bits u = u /\ 0 <= u <= 2 ^ (bits - 1) - 1).
Proof.
  intros Hbits Hu.
  assert (Hpow : 2 ^ bits = 2 * 2 ^ (bits - 1)).
  { replace bits with (Z.succ (bits - 1)) at 1 by lia.
    apply Z.pow_succ_r. lia. }
  assert (Hp : 0 < 2 ^ (bits - 1)) by (apply Z.pow_pos_nonneg; lia).
  unfold to_signed.
  destruct (u <? 2 ^ (bits - 1)) eqn:E; zbool.
  - split; intros Hbit; [|lia].
    rewrite Z.testbit_true in Hbit by lia.
    rewrite Z.div_small in Hbit by lia. discriminate Hbit.
  - split; intros Hbit; [lia|].
    assert (Hq : u / 2 ^ (bits - 1) = 1).
    { symmetry. apply (Z.div_unique _ _ 1 (u - 2 ^ (bits - 1))); lia. }
    assert (Hone : Z.testbit u (bits - 1) = true).
    { rewrite Z.testbit_true by lia. rewrite Hq. reflexivity. }
    congruence.
Qed.

(** What [tryRead] does to the object does not depend on what the caller's
    buffer held. *)
Lemma tryRead_state_independent d1 d2 n rb :
  snd (tryRead (Some d1) n rb) = snd (tryRead (Some d2) n rb) /\
  fst (fst (tryRead (Some d1) n rb)) = fst (fst (tryRead (Some d2) n rb)).
Proof.
  unfold tryRead. destruct (fBuffer rb); [split; reflexivity|].
  split_ifs; split; reflexivity.
Qed.

Lemma unsigned_read_generic (n : nat) (max : Z) (rb : CarlaRingBuffer) :
  (0 < n)%nat -> max = 2 ^ (8 * Z.of_nat n - 1) - 1 ->
  let r := tryRead (Some (to_bytes n (-1))) (Z.of_nat n) rb in
  let s := signed_of_bytes n (bytes_of (snd (fst r))) in
  let v := if fst (fst r) && (0 <=? s) && (s <=? max)
           then to_unsigned (8 * Z.of_nat n) s else 0 in
  let u := from_bytes (firstn n (bytes_of (snd (fst r)))) in
  (fst (fst r) = false -> v = 0) /\
  (fst (fst r) = true -> Z.testbit u (8 * Z.of_nat n - 1) = true -> v = 0) /\
  (fst (fst r) = true -> Z.testbit u (8 * Z.of_nat n - 1) = false ->
   v = u /\ 0 <= u <= 2 ^ (8 * Z.of_nat n - 1) - 1).
Proof.
  intros Hn Hmax r s v u.
  pose proof (from_bytes_firstn_range n (bytes_of (snd (fst r)))) as Hu.
  fold u in Hu.
  destruct (sign_bit_spec (8 * Z.of_nat n) u ltac:(lia) Hu) as [Hneg Hpos].
  assert (Hs : s = to_signed (8 * Z.of_nat n) u) by reflexivity.
  subst v. split; [|split].
  - intros ->. reflexivity.
  - intros -> Hbit. specialize (Hneg Hbit).
    replace (0 <=? s) with false by (symmetry; apply Z.leb_gt; lia).
    reflexivity.
  - intros -> Hbit. destruct (Hpos Hbit) as [Heq Hr]. split; [|exact Hr].
    replace (0 <=? s) with true by (symmetry; apply Z.leb_le; lia).
    replace (s <=? max) with true by (symmetry; apply Z.leb_le; lia).
    cbn. unfold to_unsigned. rewrite Hs, Heq. apply Z.mod_small. exact Hu.
Qed.

Lemma unsigned_reader_contract (n : nat) (max : Z) (init : Z) (f : bool -> Z -> Z) :
  (0 < n)%nat -> max = 2 ^ (8 * Z.of_nat n - 1) - 1 ->
  unsigned_read_contract n
    (r <- tryRead (Some (to_bytes n (-1))) (Z.of_nat n) ;;
     ret (if fst r && (0 <=? signed_of_bytes n (bytes_of (snd r)))
             && (signed_of_bytes n (bytes_of (snd r)) <=? max)
          then to_unsigned (8 * Z.of_nat n)
                 (signed_of_bytes n (bytes_of (snd r)))
          else 0))
    (r <- tryRead (Some (to_bytes n init)) (Z.of_nat n) ;;
     ret (f (fst r) (signed_of_bytes n (bytes_of (snd r))))).
Proof.
  intros Hn Hmax rb. cbv zeta.
  pose proof (unsigned_read_generic n max rb Hn Hmax) as Hg. cbv zeta in Hg.
  pose proof (tryRead_state_independent (to_bytes n (-1)) (to_bytes n init)
                (Z.of_nat n) rb) as [Hst _].
  rewrite !snd_bind_ret, fst_bind_ret.
  split; [reflexivity|]. split; [exact Hst|]. exact Hg.
Qed.

(** C8: each of [readUByte], [readUShort], [readUInt], [readULong] consumes
    what the signed reader of the same width consumes; it returns the value
    read, as unsigned, when that lies within [0, max-signed] and returns 0
    when the sign bit of the value read is set or [tryRead] fails. *)
Theorem unsigned_readers :
  unsigned_read_contract 1 readUByte readByte /\
  unsigned_read_contract 2 readUShort readShort /\
  unsigned_read_contract 4 readUInt readInt /\
  unsigned_read_contract 8 readULong readLong.
Proof.
  repeat match goal with |- _ /\ _ => split end.
  - exact (unsigned_reader_contract 1 INT_LEAST8_MAX 0
             (fun ok s => if ok then s else 0) ltac:(lia) eq_refl).
  - exact (unsigned_reader_contract 2 INT_LEAST16_MAX 0
             (fun ok s => if ok then s else 0) ltac:(lia) eq_refl).
  - exact (unsigned_reader_contract 4 INT_LEAST32_MAX 0
             (fun ok s => if ok then s else 0) ltac:(lia) eq_refl).
  - exact (unsigned_reader_contract 8 INT_LEAST64_MAX 0
             (fun ok s => if ok then s else 0) ltac:(lia) eq_refl).
Qed.

Lemma unsigned_readers_witness :
  fst (readUShort sample_ring) = 1027 /\
  fst (readUByte
         (mkRing member
            (mkBufferStruct 8 6 2 6 false
               (Some [x01; x02; x83; x04; x05; x06; x00; x00])))) = 0.
Proof.
  destruct unsigned_readers as (Hbyte & Hshort & _). split.
  - destruct (Hshort sample_ring) as (_ & _ & _ & _ & Hpos).
    exact (proj1 (Hpos eq_refl eq_refl)).
  - match goal with |- fst (readUByte ?rb) = 0 =>
      destruct (Hbyte rb) as (_ & _ & _ & Hneg & _) end.
    exact (Hneg eq_refl eq_refl).
Defined.

(* ------------------------------------------------------------------ *)
(** ** Round trips *)

Lemma ring_index_range cap pos j :
  0 <= pos < cap -> 0 <= j < cap -> 0 <= ring_index cap pos j < cap.
Proof.
  intros Hp Hj. unfold ring_index. destruct (pos + j <? cap) eqn:E; zbool; lia.
Qed.

Lemma ring_index_mod cap pos j :
  0 <= pos < cap -> 0 <= j < cap -> ring_index cap pos j = (pos + j) mod cap.
Proof.
  intros Hp Hj. unfold ring_index. destruct (pos + j <? cap) eqn:E; zbool.
  - now rewrite Z.mod_small by lia.
  - replace (pos + j) with (pos + j - cap + 1 * cap) at 2 by lia.
    rewrite Z.mod_add by lia. now rewrite Z.mod_small by lia.
Qed.

Lemma tryWrite_true_valid p sz rb :
  fst (tryWrite p sz rb) = true ->
  bound rb /\ 0 < sz < size (fStruct rb) /\ exists src, p = Some src.
Proof.
  unfold tryWrite, bound. destruct (fBuffer rb); [discriminate|].
  destruct p as [src|]; [|discriminate].
  destruct (0 <? sz) eqn:E1; [|discriminate].
  destruct (sz <? size (fStruct rb)) eqn:E2; [|discriminate].
  zbool. intros _. repeat split; try lia. now exists src.
Qed.

(** After a successful write the state is well formed again. *)
Lemma tryWrite_success_state rb src sz :
  bound rb -> well_formed (fStruct rb) ->
  sz <= Z.of_nat (length src) ->
  fst (tryWrite (Some src) sz rb) = true ->
  let fb := fStruct rb in
  let rb1 := snd (tryWrite (Some src) sz rb) in
  bound rb1 /\ well_formed (fStruct rb1) /\
  size (fStruct rb1) = size fb /\ head (fStruct rb1) = head fb /\
  tail (fStruct rb1) = tail fb /\
  invalidateCommit (fStruct rb1) = invalidateCommit fb /\
  wrtn (fStruct rb1) = ring_index (size fb) (wrtn fb) sz /\
  storage (fStruct rb1) = ring_put (storage fb) (size fb) (wrtn fb) src sz.
Proof.
  intros Hb Hwf Hsrc Hok fb rb1.
  destruct (tryWrite_true_valid _ _ _ Hok) as (_ & Hsz & _).
  subst rb1. revert Hok.
  rewrite (tryWrite_well_formed rb src sz Hb Hwf Hsz Hsrc). fold fb.
  destruct (_ <=? sz); [discriminate|]. intros _. cbn.
  destruct Hwf as (Hs & (Hh & Ht & Hw) & (st & Hst & Hlen)).
  fold fb in Hs, Hh, Ht, Hw, Hst, Hlen, Hsz.
  pose proof (ring_index_range (size fb) (wrtn fb) sz Hw ltac:(lia)) as Hri.
  split; [exact Hb|].
  split; [|repeat split].
  split; [exact Hs|]. split; [unfold cursors_in_range; cbn; lia|].
  eexists. split; [reflexivity|]. rewrite ring_put_length.
  unfold storage. rewrite Hst. exact Hlen.
Qed.

(** Reading [sz] bytes from where [sz] bytes were just written gives them
    back. *)
Lemma read_after_write rb src dst sz rb2 :
  bound rb -> well_formed (fStruct rb) ->
  tail (fStruct rb) = wrtn (fStruct rb) ->
  sz <= Z.of_nat (length src) -> sz <= Z.of_nat (length dst) ->
  fst (tryWrite (Some src) sz rb) = true ->
  rb2 = snd (tryWrite (Some src) sz rb) \/
  rb2 = snd (commitWrite (snd (tryWrite (Some src) sz rb))) ->
  fst (fst (tryRead (Some dst) sz rb2)) = true ->
  snd (fst (tryRead (Some dst) sz rb2))
  = Some (firstn (Z.to_nat sz) src ++ skipn (Z.to_nat sz) dst).
Proof.
  intros Hb Hwf Htw Hsrc Hdst Hok Hrb2.
  destruct (tryWrite_true_valid _ _ _ Hok) as (_ & Hsz & _).
  destruct (tryWrite_success_state rb src sz Hb Hwf Hsrc Hok)
    as (Hb1 & Hwf1 & Hs1 & Hh1 & Ht1 & Hf1 & Hw1 & Hst1).
  set (rb1 := snd (tryWrite (Some src) sz rb)) in *.
  assert (Hrb2' : bound rb2 /\ well_formed (fStruct rb2) /\
                  size (fStruct rb2) = size (fStruct rb) /\
                  tail (fStruct rb2) = tail (fStruct rb) /\
                  storage (fStruct rb2) = storage (fStruct rb1)).
  { destruct Hrb2 as [-> | ->]; [splits; assumption || reflexivity|].
    unfold commitWrite, bound in *. rewrite Hb1.
    destruct Hwf1 as (Hs & (Hh & Ht & Hw) & Hst).
    unfold well_formed, cursors_in_range.
    destruct (invalidateCommit (fStruct rb1)); [cbn; splits; auto; lia|].
    destruct (head (fStruct rb1) =? wrtn (fStruct rb1));
      cbn; splits; auto; lia. }
  destruct Hrb2' as (Hb2 & Hwf2 & Hs2 & Ht2 & Hst2).
  rewrite (tryRead_well_formed rb2 dst sz Hb2 Hwf2) by lia.
  destruct (_ || _); [discriminate|]. intros _. cbn.
  rewrite Hst2, Hst1, Hs2, Ht2, Htw.
  destruct Hwf as (Hs & (Hh & Ht & Hw) & (st & Hst & Hlen)).
  replace sz with (Z.of_nat (Z.to_nat sz)) at 1 by lia.
  rewrite ring_get_put; try lia.
  - reflexivity.
  - unfold storage. rewrite Hst. exact Hlen.
Qed.

Lemma tryRead_preserves_binding p n rb :
  fBuffer (snd (tryRead p n rb)) = fBuffer rb.
Proof.
  unfold tryRead. destruct (fBuffer rb) eqn:E; [exact E|].
  destruct p; [|exact E]. split_ifs; cbn; exact E.
Qed.

Lemma tryWrite_preserves_binding p n rb :
  fBuffer (snd (tryWrite p n rb)) = fBuffer rb.
Proof.
  unfold tryWrite. destruct (fBuffer rb) eqn:E; [exact E|].
  destruct p; [|exact E]. split_ifs; cbn; exact E.
Qed.

(** On an empty buffer with nothing pending: write, commit, read the same
    number of bytes.  All three succeed, the bytes come back and the buffer
    is empty again. *)
Lemma write_commit_read_on_empty rb src dst sz :
  bound rb -> well_formed (fStruct rb) ->
  head (fStruct rb) = tail (fStruct rb) ->
  tail (fStruct rb) = wrtn (fStruct rb) ->
  invalidateCommit (fStruct rb) = false ->
  0 < sz < size (fStruct rb) ->
  sz <= Z.of_nat (length src) -> sz <= Z.of_nat (length dst) ->
  let w := tryWrite (Some src) sz rb in
  let c := commitWrite (snd w) in
  let r := tryRead (Some dst) sz (snd c) in
  fst w = true /\ fst c = true /\ fst (fst r) = true /\
  snd (fst r) = Some (firstn (Z.to_nat sz) src ++ skipn (Z.to_nat sz) dst) /\
  head (fStruct (snd r)) = tail (fStruct (snd r)).
Proof.
  intros Hb Hwf Hht Htw Hflag Hsz Hsrc Hdst w c r.
  assert (Hw : fst w = true).
  { subst w. rewrite (tryWrite_well_formed rb src sz Hb Hwf Hsz Hsrc).
    rewrite Htw, Z.ltb_irrefl.
    replace (_ <=? sz) with false by (symmetry; apply Z.leb_gt; lia).
    reflexivity. }
  destruct (tryWrite_success_state rb src sz Hb Hwf Hsrc Hw)
    as (Hb1 & Hwf1 & Hs1 & Hh1 & Ht1 & Hf1 & Hw1 & Hst1).
  fold w in Hb1, Hwf1, Hs1, Hh1, Ht1, Hf1, Hw1, Hst1.
  pose proof Hwf as (Hs & (Hh & Ht & Hwr) & _).
  assert (Hri : ring_index (size (fStruct rb)) (wrtn (fStruct rb)) sz
                <> wrtn (fStruct rb) /\
                0 <= ring_index (size (fStruct rb)) (wrtn (fStruct rb)) sz
                < size (fStruct rb)).
  { unfold ring_index. destruct (_ <? _) eqn:E; zbool; lia. }
  assert (Hc : c = (true, set_fStruct
                            (set_head (wrtn (fStruct (snd w))) (fStruct (snd w)))
                            (snd w))).
  { subst c. unfold commitWrite. rewrite Hb1, Hf1, Hflag.
    replace (head (fStruct (snd w)) =? wrtn (fStruct (snd w))) with false
      by (symmetry; apply Z.eqb_neq; lia).
    reflexivity. }
  assert (Hb2 : bound (snd c)) by (rewrite Hc; exact Hb1).
  assert (Hwf2 : well_formed (fStruct (snd c))).
  { rewrite Hc. destruct Hwf1 as (Hs' & (Hh' & Ht' & Hw') & Hst').
    unfold well_formed, cursors_in_range. cbn. splits; auto; lia. }
  assert (Hr : fst (fst r) = true).
  { subst r. rewrite (tryRead_well_formed _ dst sz Hb2 Hwf2)
      by (rewrite ?Hc; cbn; lia).
    rewrite Hc. cbn. rewrite Hw1, Ht1, Hs1, Htw.
    replace (_ || _) with false; [reflexivity|].
    symmetry. apply orb_false_iff. unfold ring_index in *.
    destruct (wrtn (fStruct rb) + sz <? size (fStruct rb)) eqn:E; zbool.
    - replace (wrtn (fStruct rb) <? wrtn (fStruct rb) + sz) with true
        by (symmetry; apply Z.ltb_lt; lia).
      split; [apply Z.eqb_neq | apply Z.ltb_ge]; lia.
    - replace (wrtn (fStruct rb) <? wrtn (fStruct rb) + sz - size (fStruct rb))
        with false by (symmetry; apply Z.ltb_ge; lia).
      split; [apply Z.eqb_neq | apply Z.ltb_ge]; lia. }
  splits; try assumption.
  - rewrite Hc; reflexivity.
  - apply (read_after_write rb src dst sz (snd c)); auto.
  - subst r. revert Hr.
    rewrite (tryRead_well_formed _ dst sz Hb2 Hwf2)
      by (rewrite ?Hc; cbn; lia).
    destruct (_ || _); [discriminate|]. intros _.
    rewrite Hc. cbn. rewrite Hw1, Ht1, Hs1, Htw. reflexivity.
Qed.

Lemma clear_state rb :
  bound rb -> is_uint32 (size (fStruct rb)) -> storage_ok (fStruct rb) ->
  0 < size (fStruct rb) ->
  let rb0 := snd (clear rb) in
  bound rb0 /\ well_formed (fStruct rb0) /\
  size (fStruct rb0) = size (fStruct rb) /\
  head (fStruct rb0) = 0 /\ tail (fStruct rb0) = 0 /\
  wrtn (fStruct rb0) = 0 /\ invalidateCommit (fStruct rb0) = false.
Proof.
  intros Hb Hs (st & Hst & Hlen) Hpos. unfold clear. rewrite Hb. cbn.
  splits; try reflexivity; try exact Hb.
  split; [exact Hs|]. split; [unfold cursors_in_range; cbn; lia|].
  unfold storage_ok. cbn. rewrite Hst. cbn. eexists. split; [reflexivity|].
  now rewrite length_map, length_seq.
Qed.

(** C9: on a freshly cleared bound buffer of more than 4 bytes,
    [writeInt(42)] and [commitWrite()] succeed, [readInt()] then returns 42,
    and the buffer is empty again ([head == tail]). *)
Theorem writeInt_commit_readInt (rb : CarlaRingBuffer) :
  bound rb -> is_uint32 (size (fStruct rb)) -> storage_ok (fStruct rb) ->
  4 < size (fStruct rb) ->
  let w := writeInt 42 (snd (clear rb)) in
  let c := commitWrite (snd w) in
  let v := readInt (snd c) in
  fst w = true /\ fst c = true /\ fst v = 42 /\
  isEmpty (snd v) = true /\
  head (fStruct (snd v)) = tail (fStruct (snd v)).
Proof.
  intros Hb Hs Hst Hcap.
  destruct (clear_state rb Hb Hs Hst ltac:(lia))
    as (Hb0 & Hwf0 & Hs0 & Hh0 & Ht0 & Hw0 & Hf0).
  pose proof (write_commit_read_on_empty (snd (clear rb)) (to_bytes 4 42)
                (to_bytes 4 0) 4 Hb0 Hwf0 ltac:(lia) ltac:(lia) Hf0
                ltac:(lia) ltac:(cbn; lia) ltac:(cbn; lia)) as H.
  cbv zeta in H. destruct H as (Hw & Hc & Hr & Hout & Hempty).
  cbv zeta. unfold writeInt, readInt, bind, ret.
  match goal with
  | |- context [tryRead ?p ?n ?x] =>
      pose proof (tryRead_preserves_binding p n x) as Hbind;
      pose proof (tryWrite_preserves_binding (Some (to_bytes 4 42)) 4
                    (snd (clear rb))) as Hbw;
      assert (Hbx : fBuffer x = member)
  end.
  { unfold bound in Hb0. unfold commitWrite. rewrite Hbw, Hb0.
    split_ifs; cbn [snd set_fStruct fBuffer];
      rewrite ?tryWrite_preserves_binding; exact Hb0. }
  rewrite Hbx in Hbind.
  match goal with
  | |- context [tryRead ?p ?n ?x] =>
      destruct (tryRead p n x) as [[ok out] rb3]
  end.
  cbn in Hr, Hout, Hempty, Hbind |- *. subst ok out.
  splits; try assumption.
  - reflexivity.
  - unfold isEmpty. rewrite Hbind. apply Z.eqb_eq. exact Hempty.
Qed.

Lemma sample_ring_storage_ok : storage_ok (fStruct sample_ring).
Proof. exists sample_storage. split; reflexivity. Qed.

Lemma writeInt_commit_readInt_witness :
  let w := writeInt 42 (snd (clear sample_ring)) in
  let c := commitWrite (snd w) in
  let v := readInt (snd c) in
  fst w = true /\ fst c = true /\ fst v = 42 /\
  isEmpty (snd v) = true /\
  head (fStruct (snd v)) = tail (fStruct (snd v)).
Proof.
  apply (writeInt_commit_readInt sample_ring).
  - reflexivity.
  - unfold is_uint32, UINT32_MODULUS. simpl. lia.
  - exists sample_storage. split; reflexivity.
  - simpl. lia.
Defined.

(* ------------------------------------------------------------------ *)
(** ** Wrap-around *)

Lemma sample_ring_well_formed : well_formed (fStruct sample_ring).
Proof.
  split; [|split].
  - unfold is_uint32, UINT32_MODULUS. simpl. lia.
  - unfold cursors_in_range. simpl. lia.
  - exact sample_ring_storage_ok.
Qed.

(** C4, as stated, fails: with unread bytes in the buffer the read returns
    the oldest unread bytes, not the ones just written. *)
Lemma wraparound_as_specified_fails :
  ~ wraparound_as_specified false /\ ~ wraparound_as_specified true.
Proof.
  split; intros H;
    specialize (H sample_ring [xaa; xbb; xcc] [x00; x00; x00]
                  eq_refl sample_ring_well_formed eq_refl eq_refl eq_refl
                  eq_refl);
    vm_compute in H; discriminate H.
Qed.

(** C4 (amended): on a bound, well-formed buffer whose read cursor is where
    the write starts ([tail == wrtn]), a successful write that crosses the
    end of the storage puts the front of the bytes at [wrtn .. capacity)
    and the rest at [0 ..), moves [wrtn] to [(wrtn + size) mod capacity],
    and a successful read of the same size, with or without
    [commitWrite()] before it, returns exactly the bytes written. *)
Theorem wraparound_roundtrip (rb : CarlaRingBuffer) (src dst : list byte) :
  let fb := fStruct rb in
  let sz := Z.of_nat (length src) in
  bound rb -> well_formed fb -> tail fb = wrtn fb ->
  length dst = length src ->
  size fb < wrtn fb + sz ->
  fst (tryWrite (Some src) sz rb) = true ->
  let rb1 := snd (tryWrite (Some src) sz rb) in
  wrtn (fStruct rb1) = (wrtn fb + sz) mod size fb /\
  (forall j, 0 <= j < size fb - wrtn fb ->
     nth (Z.to_nat (wrtn fb + j)) (storage (fStruct rb1)) x00
     = nth (Z.to_nat j) src x00) /\
  (forall j, size fb - wrtn fb <= j < sz ->
     nth (Z.to_nat (j - (size fb - wrtn fb))) (storage (fStruct rb1)) x00
     = nth (Z.to_nat j) src x00) /\
  (forall rb2,
     rb2 = rb1 \/ rb2 = snd (commitWrite rb1) ->
     fst (fst (tryRead (Some dst) sz rb2)) = true ->
     snd (fst (tryRead (Some dst) sz rb2)) = Some src).
Proof.
  intros fb sz Hb Hwf Htw Hlen Hcross Hok rb1.
  destruct (tryWrite_true_valid _ _ _ Hok) as (_ & Hsz & _).
  destruct (tryWrite_success_state rb src sz Hb Hwf ltac:(lia) Hok)
    as (Hb1 & Hwf1 & Hs1 & Hh1 & Ht1 & Hf1 & Hw1 & Hst1).
  fold rb1 in Hb1, Hwf1, Hs1, Hh1, Ht1, Hf1, Hw1, Hst1.
  fold fb in Hs1, Hh1, Ht1, Hf1, Hw1, Hst1, Hsz.
  pose proof Hwf as (Hs & (Hh & Ht & Hw) & (st & Hbuf & Hstlen)).
  fold fb in Hs, Hh, Ht, Hw, Hbuf, Hstlen.
  assert (Hstore : storage fb = st) by (unfold storage; now rewrite Hbuf).
  splits.
  - rewrite Hw1. apply ring_index_mod; lia.
  - intros j Hj. rewrite Hst1, Hstore, ring_put_nth by lia.
    unfold ring_offset. rewrite Z2Nat.id by lia.
    replace (wrtn fb <=? wrtn fb + j) with true
      by (symmetry; apply Z.leb_le; lia).
    replace (wrtn fb + j - wrtn fb) with j by lia.
    replace (j <? sz) with true by (symmetry; apply Z.ltb_lt; lia).
    reflexivity.
  - intros j Hj. rewrite Hst1, Hstore, ring_put_nth by lia.
    unfold ring_offset. rewrite Z2Nat.id by lia.
    replace (wrtn fb <=? j - (size fb - wrtn fb)) with false
      by (symmetry; apply Z.leb_gt; lia).
    replace (j - (size fb - wrtn fb) - wrtn fb + size fb) with j by lia.
    replace (j <? sz) with true by (symmetry; apply Z.ltb_lt; lia).
    reflexivity.
  - intros rb2 Hrb2 Hread.
    rewrite (read_after_write rb src dst sz rb2 Hb Hwf Htw ltac:(lia)
               ltac:(lia) Hok Hrb2 Hread).
    subst sz. rewrite Nat2Z.id, firstn_all, <- Hlen, skipn_all, app_nil_r.
    reflexivity.
Qed.

Lemma wraparound_roundtrip_witness :
  let src := [xaa; xbb; xcc; xdd] in
  let rb1 := snd (tryWrite (Some src) 4 sample_ring_at_6) in
  wrtn (fStruct rb1) = 2 /\
  storage (fStruct rb1) = [xcc; xdd; x03; x04; x05; x06; xaa; xbb] /\
  snd (fst (tryRead (Some (to_bytes 4 0)) 4 (snd (commitWrite rb1))))
  = Some src.
Proof.
  intros src rb1.
  assert (Hwf : well_formed (fStruct sample_ring_at_6)).
  { split; [|split].
    - unfold is_uint32, UINT32_MODULUS. simpl. lia.
    - unfold cursors_in_range. simpl. lia.
    - exists sample_storage. split; reflexivity. }
  destruct (wraparound_roundtrip sample_ring_at_6 src (to_bytes 4 0)
              eq_refl Hwf eq_refl eq_refl eq_refl eq_refl)
    as (Hw & _ & _ & Hread).
  split; [exact Hw|]. split; [reflexivity|].
  apply Hread; [right; reflexivity | reflexivity].
Defined.

(* ------------------------------------------------------------------ *)
(** ** Write groups *)

Lemma memcpy_src_ext dst doff src src' soff n :
  length src = length src' ->
  (forall k, (soff <= k < soff + n)%nat -> nth k src x00 = nth k src' x00) ->
  memcpy dst doff src soff n = memcpy dst doff src' soff n.
Proof.
  intros Hlen Hext. unfold memcpy. apply map_ext_in. intros i _.
  destruct ((doff <=? i)%nat && (i <? doff + n)%nat) eqn:E; [|reflexivity].
  apply andb_true_iff in E. destruct E as [E1 E2].
  apply Nat.leb_le in E1. apply Nat.ltb_lt in E2.
  destruct (Nat.lt_ge_cases (soff + (i - doff)) (length src)) as [Hin | Hout].
  - rewrite (nth_indep src _ x00) by exact Hin.
    rewrite (nth_indep src' _ x00) by (rewrite <- Hlen; exact Hin).
    apply Hext. lia.
  - rewrite (nth_overflow src) by exact Hout.
    rewrite (nth_overflow src') by (rewrite <- Hlen; exact Hout).
    reflexivity.
Qed.

(** One write of a group: whatever the request, the reader's view and the
    state invariants stay, and a raised failure flag stays raised. *)
Lemma tryWrite_group_step rb0 rb p n :
  group_invariant rb0 rb ->
  group_invariant rb0 (snd (tryWrite p n rb)) /\
  (invalidateCommit (fStruct rb) = true ->
   invalidateCommit (fStruct (snd (tryWrite p n rb))) = true).
Proof.
  intros Hinv.
  assert (Hsame : group_invariant rb0 rb /\
                  (invalidateCommit (fStruct rb) = true ->
                   invalidateCommit (fStruct rb) = true))
    by (split; [exact Hinv | auto]).
  destruct Hinv as (Hb & Hwf & Hp & Hv).
  pose proof Hwf as (Hs & Hc & (st & Hst & Hlen)).
  pose proof (free_space_in_range _ Hs Hc) as Hfree.
  destruct Hc as (Hh & Ht & Hw).
  destruct Hv as (Hvb & Hvs & Hvh & Hvt & Hvst).
  destruct Hp as (Hp1 & Hp2).
  unfold tryWrite. rewrite Hb.
  destruct p as [src|]; [|exact Hsame].
  destruct (0 <? n) eqn:E1; [|exact Hsame].
  destruct (n <? size (fStruct rb)) eqn:E2; [|exact Hsame].
  cbn [negb]. zbool. unfold free_space in Hfree. cbv zeta in Hfree.
  rewrite Hfree. unfold is_uint32 in Hs.
  assert (Hstore : storage (fStruct rb) = st)
    by (unfold storage; now rewrite Hst).
  destruct (_ <=? n) eqn:E3.
  - (* not enough space *)
    cbn. split; [|reflexivity].
    split; [exact Hb|]. split; [|split].
    + split; [exact Hs|]. split; [unfold cursors_in_range; cbn; lia|].
      exists st. split; assumption.
    + split; cbn; assumption.
    + unfold same_view. cbn. splits; assumption.
  - zbool. rewrite SizeT_add_small by zsolve. rewrite Hst. cbn [option_map].
    destruct (wrtn (fStruct rb) <? tail (fStruct rb)) eqn:E5; zbool.
    + (* the free arc does not wrap *)
      replace (size (fStruct rb) <? wrtn (fStruct rb) + n) with false
        by (symmetry; apply Z.ltb_ge; lia).
      replace (wrtn (fStruct rb) + n =? size (fStruct rb)) with false
        by (symmetry; apply Z.eqb_neq; lia).
      cbn. split; [|auto].
      split; [exact Hb|]. split; [|split].
      * split; [exact Hs|]. split; [unfold cursors_in_range; cbn; lia|].
        eexists. split; [reflexivity|]. now rewrite memcpy_length.
      * split; cbn; lia.
      * unfold same_view. cbn. splits; try assumption.
        intros i Hi. rewrite <- Hvst by exact Hi. rewrite Hstore.
        unfold storage. cbn. apply memcpy_nth_outside.
        unfold readable in Hi. rewrite <- Hvh, <- Hvt, <- Hvs in Hi.
        destruct (tail (fStruct rb) <=? head (fStruct rb)) eqn:E6;
          zbool; lia.
    + destruct (size (fStruct rb) <? wrtn (fStruct rb) + n) eqn:E4; zbool.
      * (* the copy wraps *)
        rewrite !SizeT_sub_small by zsolve.
        cbn. split; [|auto].
        split; [exact Hb|]. split; [|split].
        -- split; [exact Hs|]. split; [unfold cursors_in_range; cbn; lia|].
           eexists. split; [reflexivity|]. now rewrite !memcpy_length.
        -- split; cbn; lia.
        -- unfold same_view. cbn. splits; try assumption.
           intros i Hi. rewrite <- Hvst by exact Hi. rewrite Hstore.
           unfold storage. cbn.
           unfold readable in Hi. rewrite <- Hvh, <- Hvt, <- Hvs in Hi.
           rewrite !memcpy_nth_outside; [reflexivity | |];
             destruct (tail (fStruct rb) <=? head (fStruct rb)) eqn:E6;
             zbool; lia.
      * (* the copy ends at or before the end of the storage *)
        destruct (wrtn (fStruct rb) + n =? size (fStruct rb)) eqn:E7; zbool;
          (cbn; split; [|auto];
           split; [exact Hb|]; split; [|split];
           [ split; [exact Hs|];
             split; [unfold cursors_in_range; cbn; lia|];
             eexists; split; [reflexivity|]; now rewrite memcpy_length
           | split; cbn; lia
           | unfold same_view; cbn; splits; try assumption;
             intros i Hi; rewrite <- Hvst by exact Hi; rewrite Hstore;
             unfold storage; cbn; apply memcpy_nth_outside;
             unfold readable in Hi; rewrite <- Hvh, <- Hvt, <- Hvs in Hi;
             destruct (tail (fStruct rb) <=? head (fStruct rb)) eqn:E6;
             zbool; lia ]).
Qed.

Lemma write_group_invariant rb0 ws :
  forall rb,
    group_invariant rb0 rb ->
    group_invariant rb0 (snd (write_group ws rb)) /\
    (invalidateCommit (fStruct rb) = true ->
     invalidateCommit (fStruct (snd (write_group ws rb))) = true).
Proof.
  induction ws as [|[p n] ws IH]; intros rb Hinv.
  - cbn. auto.
  - cbn [write_group].
    destruct (tryWrite_group_step rb0 rb p n Hinv) as [H1 Hf1].
    destruct (tryWrite p n rb) as [ok rb1]. cbn [snd] in H1, Hf1.
    destruct (IH rb1 H1) as [H2 Hf2].
    destruct (write_group ws rb1) as [oks rb2]. cbn [snd] in *.
    split; auto.
Qed.

(** A request the engine accepts as well formed fails only for lack of
    space, and that raises the flag. *)
Lemma tryWrite_failure_flag rb src n :
  bound rb -> 0 < n < size (fStruct rb) ->
  fst (tryWrite (Some src) n rb) = false ->
  invalidateCommit (fStruct (snd (tryWrite (Some src) n rb))) = true.
Proof.
  intros Hb Hn. unfold tryWrite. rewrite Hb.
  replace (0 <? n) with true by (symmetry; apply Z.ltb_lt; lia).
  replace (n <? size (fStruct rb)) with true by (symmetry; apply Z.ltb_lt; lia).
  cbn [negb]. split_ifs; cbn; congruence.
Qed.

(** A read sees only the readable positions: two states with the same view
    give the same result, the same bytes and the same new [tail]. *)
Lemma tryRead_same_view rb0 rb p n :
  bound rb0 -> well_formed (fStruct rb0) ->
  bound rb -> well_formed (fStruct rb) -> same_view rb0 rb ->
  fst (tryRead p n rb) = fst (tryRead p n rb0) /\
  tail (fStruct (snd (tryRead p n rb)))
  = tail (fStruct (snd (tryRead p n rb0))).
Proof.
  intros Hb0 Hwf0 Hb Hwf (Hvb & Hvs & Hvh & Hvt & Hvst).
  pose proof Hwf0 as (Hs & Hc & (st0 & Hst0 & Hlen0)).
  pose proof (available_in_range _ Hs Hc) as Hav.
  destruct Hc as (Hh & Ht & Hw).
  destruct Hwf as (_ & _ & (st & Hst & Hlen)).
  unfold is_uint32 in Hs.
  assert (Hstore0 : storage (fStruct rb0) = st0)
    by (unfold storage; now rewrite Hst0).
  assert (Hstore : storage (fStruct rb) = st)
    by (unfold storage; now rewrite Hst).
  rewrite Hstore, Hstore0 in Hvst.
  assert (Hll : length st = length st0) by lia.
  unfold tryRead. rewrite Hb, Hb0, Hvs, Hvh, Hvt, Hstore, Hstore0.
  destruct p as [dst|]; [|split; [reflexivity | exact Hvt]].
  destruct (0 <? n) eqn:E1; [|split; [reflexivity | exact Hvt]].
  destruct (n <? size (fStruct rb0)) eqn:E2;
    [|split; [reflexivity | exact Hvt]].
  destruct (head (fStruct rb0) =? tail (fStruct rb0)) eqn:E3;
    [split; [reflexivity | exact Hvt]|].
  cbn [negb]. zbool. unfold available in Hav. cbv zeta in Hav. rewrite Hav.
  destruct (_ <? n) eqn:E4; [split; [reflexivity | exact Hvt]|].
  zbool. rewrite SizeT_add_small by zsolve.
  unfold readable in Hvst.
  destruct (size (fStruct rb0) <? tail (fStruct rb0) + n) eqn:E5; zbool.
  - rewrite !SizeT_sub_small by zsolve. cbn. split; [|reflexivity].
    do 2 f_equal.
    rewrite (memcpy_src_ext dst 0 st st0) by
      (try exact Hll; intros k Hk; apply Hvst;
       destruct (tail (fStruct rb0) <=? head (fStruct rb0)) eqn:E6;
       destruct (tail (fStruct rb0) <? head (fStruct rb0)) eqn:E7;
       zbool; lia).
    apply memcpy_src_ext; [exact Hll|].
    intros k Hk. apply Hvst.
    destruct (tail (fStruct rb0) <=? head (fStruct rb0)) eqn:E6;
      destruct (tail (fStruct rb0) <? head (fStruct rb0)) eqn:E7;
      zbool; lia.
  - cbn. split; [|reflexivity].
    do 2 f_equal. apply memcpy_src_ext; [exact Hll|].
    intros k Hk. apply Hvst.
    destruct (tail (fStruct rb0) <=? head (fStruct rb0)) eqn:E6;
      destruct (tail (fStruct rb0) <? head (fStruct rb0)) eqn:E7;
      zbool; lia.
Qed.

(** C2: a write group starts on a bound, well-formed buffer with nothing
    pending ([wrtn == head], flag clear).  If some write [a] of the group
    succeeds and a later write [b] fails for lack of space, then
    [commitWrite()] returns failure and puts [head], [tail], [wrtn] and the
    flag back to what they were before the group; every read afterwards
    gives the result, the bytes and the new [tail] it would have given
    before the group. *)
Theorem failed_group_rolls_back
  (rb : CarlaRingBuffer) (pre mid post : list request)
  (a : request) (src_b : list byte) (n_b : Z) :
  bound rb -> well_formed (fStruct rb) ->
  wrtn (fStruct rb) = head (fStruct rb) ->
  invalidateCommit (fStruct rb) = false ->
  let rb1 := snd (write_group pre rb) in
  fst (tryWrite (fst a) (snd a) rb1) = true ->
  let rb2 := snd (write_group mid (snd (tryWrite (fst a) (snd a) rb1))) in
  0 < n_b < size (fStruct rb) ->
  fst (tryWrite (Some src_b) n_b rb2) = false ->
  let rb3 := snd (write_group post (snd (tryWrite (Some src_b) n_b rb2))) in
  let rb4 := snd (commitWrite rb3) in
  fst (commitWrite rb3) = false /\
  head (fStruct rb4) = head (fStruct rb) /\
  tail (fStruct rb4) = tail (fStruct rb) /\
  wrtn (fStruct rb4) = wrtn (fStruct rb) /\
  invalidateCommit (fStruct rb4) = invalidateCommit (fStruct rb) /\
  size (fStruct rb4) = size (fStruct rb) /\
  isDataAvailableForReading rb4 = isDataAvailableForReading rb /\
  isEmpty rb4 = isEmpty rb /\
  forall (dst : option (list byte)) (n : Z),
    fst (tryRead dst n rb4) = fst (tryRead dst n rb) /\
    tail (fStruct (snd (tryRead dst n rb4)))
    = tail (fStruct (snd (tryRead dst n rb))).
Proof.
  intros Hb Hwf Hwh Hflag rb1 Ha rb2 Hnb Hfail rb3 rb4.
  assert (H0 : group_invariant rb rb).
  { split; [exact Hb|]. split; [exact Hwf|]. split.
    - unfold pending_ok. lia.
    - unfold same_view. splits; auto. }
  destruct (write_group_invariant rb pre rb H0) as [H1 _]. fold rb1 in H1.
  destruct (tryWrite_group_step rb rb1 (fst a) (snd a) H1) as [H1a _].
  destruct (write_group_invariant rb mid _ H1a) as [H2 _]. fold rb2 in H2.
  destruct (tryWrite_group_step rb rb2 (Some src_b) n_b H2) as [H2b _].
  destruct (write_group_invariant rb post _ H2b) as [H3 Hf3]. fold rb3 in H3.
  destruct H2 as (Hb2 & Hwf2 & Hp2 & (_ & Hs2 & _)).
  assert (Hset : invalidateCommit (fStruct rb3) = true).
  { apply Hf3. apply tryWrite_failure_flag; [exact Hb2 | lia | exact Hfail]. }
  destruct H3 as (Hb3 & Hwf3 & Hp3 & (Hvb & Hvs & Hvh & Hvt & Hvst)).
  assert (Hc : commitWrite rb3 =
               (false,
                set_fStruct
                  (set_invalidateCommit false
                     (set_wrtn (head (fStruct rb3)) (fStruct rb3))) rb3)).
  { unfold commitWrite. rewrite Hb3, Hset. reflexivity. }
  assert (Hb4 : bound rb4) by (subst rb4; rewrite Hc; exact Hb3).
  assert (Hwf4 : well_formed (fStruct rb4)).
  { subst rb4. rewrite Hc. destruct Hwf3 as (Hs3 & (Hh3 & Ht3 & Hw3) & Hst3).
    split; [exact Hs3|]. split; [unfold cursors_in_range; cbn; lia|].
    exact Hst3. }
  assert (Hv4 : same_view rb rb4).
  { subst rb4. rewrite Hc. unfold same_view. cbn. splits; assumption. }
  pose proof Hv4 as (Hvb4 & Hvs4 & Hvh4 & Hvt4 & _).
  splits.
  - rewrite Hc. reflexivity.
  - exact Hvh4.
  - exact Hvt4.
  - subst rb4. rewrite Hc. cbn. lia.
  - subst rb4. rewrite Hc. cbn. now rewrite Hflag.
  - exact Hvs4.
  - unfold isDataAvailableForReading. now rewrite Hvb4, Hvh4, Hvt4.
  - unfold isEmpty. now rewrite Hvb4, Hvh4, Hvt4.
  - intros dst n. now apply tryRead_same_view.
Qed.

Lemma failed_group_rolls_back_witness :
  let group := [(Some (to_bytes 1 5), 1); (Some (to_bytes 4 7), 4)] in
  let rb3 := snd (write_group group sample_ring) in
  let rb4 := snd (commitWrite rb3) in
  fst (write_group group sample_ring) = [true; false] /\
  fst (commitWrite rb3) = false /\
  head (fStruct rb4) = 6 /\ tail (fStruct rb4) = 2 /\
  wrtn (fStruct rb4) = 6 /\ invalidateCommit (fStruct rb4) = false /\
  forall (dst : option (list byte)) (n : Z),
    fst (tryRead dst n rb4) = fst (tryRead dst n sample_ring).
Proof.
  intros group rb3 rb4.
  pose proof (failed_group_rolls_back sample_ring [] [] []
                (Some (to_bytes 1 5), 1) (to_bytes 4 7) 4
                eq_refl sample_ring_well_formed eq_refl eq_refl eq_refl
                (conj eq_refl eq_refl) eq_refl) as H.
  cbv zeta in H.
  destruct H as (Hc & Hh & Ht & Hw & Hf & _ & _ & _ & Hread).
  split; [reflexivity|].
  split; [exact Hc|]. split; [exact Hh|]. split; [exact Ht|].
  split; [exact Hw|]. split; [exact Hf|].
  intros dst n. exact (proj1 (Hread dst n)).
Defined.

(* ------------------------------------------------------------------ *)
(** ** The heap wrapper *)

(** Binding an unbound engine clears the new buffer. *)
Lemma createBuffer_when_unbound rb sz garbage :
  fBuffer rb = nullptr -> 0 < sz ->
  let n := carla_nextPowerOf2 sz in
  snd (createBuffer sz garbage rb) =
  mkRing member
    (mkBufferStruct n 0 0 0 false
       (carla_zeroBytes (Some (new_array garbage n)) n)).
Proof.
  intros Hnull Hsz n. unfold createBuffer.
  replace (0 <? sz) with true by (symmetry; apply Z.ltb_lt; lia).
  cbn [negb]. unfold setRingBuffer. cbn. rewrite Hnull. reflexivity.
Qed.

(** C10: [createBuffer(size)] on an engine that is already bound replaces
    the capacity and the storage pointer and nothing else: [setRingBuffer]
    is handed the pointer it already holds and returns at once, so
    [clear()] does not run; [head], [tail], [wrtn] and [invalidateCommit]
    keep their values and the new storage holds what the allocator gave.
    A retained [head] at or beyond the new capacity breaks the cursor
    invariant. *)
Theorem createBuffer_when_bound
  (rb : CarlaRingBuffer) (sz : Z) (garbage : nat -> byte) :
  fBuffer rb = member -> 0 < sz ->
  let fb := fStruct rb in
  let n := carla_nextPowerOf2 sz in
  let rb' := snd (createBuffer sz garbage rb) in
  setRingBuffer member true rb = (tt, rb) /\
  rb' =
  mkRing member
    (mkBufferStruct n (head fb) (tail fb) (wrtn fb) (invalidateCommit fb)
       (Some (new_array garbage n))) /\
  (forall i : nat,
     Z.of_nat i < n -> nth i (storage (fStruct rb')) x00 = garbage i) /\
  (n <= head fb -> ~ cursors_in_range (fStruct rb')).
Proof.
  intros Hb Hsz fb n rb'.
  assert (Hrb' : rb' =
                 mkRing member
                   (mkBufferStruct n (head fb) (tail fb) (wrtn fb)
                      (invalidateCommit fb) (Some (new_array garbage n)))).
  { subst rb'. unfold createBuffer.
    replace (0 <? sz) with true by (symmetry; apply Z.ltb_lt; lia).
    cbn [negb]. unfold setRingBuffer. cbn. rewrite Hb. cbn.
    unfold set_fStruct. rewrite Hb. reflexivity. }
  splits.
  - unfold setRingBuffer. rewrite Hb. reflexivity.
  - exact Hrb'.
  - intros i Hi. rewrite Hrb'. unfold storage, new_array. cbn.
    rewrite nth_map_seq by lia. reflexivity.
  - intros Hle Hc. rewrite Hrb' in Hc. unfold cursors_in_range in Hc.
    cbn in Hc. lia.
Qed.

Lemma createBuffer_when_bound_witness :
  let rb' := snd (createBuffer 10 (fun _ => xcc) sample_heap_ring) in
  fBuffer sample_heap_ring = member /\
  size (fStruct sample_heap_ring) = 64 /\
  rb' = mkRing member (mkBufferStruct 16 40 0 40 false (Some (repeat xcc 16)))
  /\ ~ cursors_in_range (fStruct rb').
Proof.
  intros rb'.
  destruct (createBuffer_when_bound sample_heap_ring 10 (fun _ => xcc)
              eq_refl eq_refl) as (_ & Hrb & _ & Hbad).
  split; [reflexivity|]. split; [reflexivity|].
  split; [exact Hrb|]. apply Hbad. vm_compute. discriminate.
Defined.

(* ------------------------------------------------------------------ *)
(** ** Lifecycle *)

(** A cleared bound buffer is empty. *)
Lemma clear_is_empty rb :
  bound rb ->
  isEmpty (snd (clear rb)) = true /\
  isDataAvailableForReading (snd (clear rb)) = false.
Proof.
  intros Hb. unfold clear, isEmpty, isDataAvailableForReading.
  rewrite Hb. cbn. rewrite Hb. split; reflexivity.
Qed.

Lemma new_array_length garbage n :
  0 <= n -> Z.of_nat (length (new_array garbage n)) = n.
Proof.
  intros Hn. unfold new_array. rewrite length_map, length_seq. lia.
Qed.

(** A stack ring buffer is ready after construction: bound, well formed,
    4096 bytes, empty. *)
Lemma CarlaStackRingBuffer_new_ready indeterminate garbage :
  let rb := CarlaStackRingBuffer_new indeterminate garbage in
  bound rb /\ well_formed (fStruct rb) /\
  size (fStruct rb) = StackBuffer_size /\ isEmpty rb = true.
Proof.
  unfold CarlaStackRingBuffer_new.
  set (rb0 := mkRing member _).
  assert (Hst : storage_ok (fStruct rb0)).
  { subst rb0. eexists. split; [reflexivity|].
    cbn [fStruct size set_size set_buf].
    apply new_array_length. unfold StackBuffer_size. lia. }
  destruct (clear_state rb0 eq_refl) as (Hb & Hwf & Hs & Hh & Ht & _).
  - unfold is_uint32, UINT32_MODULUS. subst rb0. cbn.
    unfold StackBuffer_size. lia.
  - exact Hst.
  - subst rb0. cbn. unfold StackBuffer_size. lia.
  - cbv zeta. splits; try assumption.
    destruct (clear_is_empty rb0 eq_refl) as [He _]. exact He.
Qed.

(** With [deleteBuffer()] in between, [createBuffer] binds afresh and
    clears. *)
Lemma deleteBuffer_then_createBuffer rb sz garbage :
  buf (fStruct rb) <> None -> 0 < sz ->
  let n := carla_nextPowerOf2 sz in
  snd (createBuffer sz garbage (snd (deleteBuffer rb))) =
  mkRing member
    (mkBufferStruct n 0 0 0 false
       (carla_zeroBytes (Some (new_array garbage n)) n)).
Proof.
  intros Hbuf Hsz n. apply createBuffer_when_unbound; [|exact Hsz].
  unfold deleteBuffer. destruct (buf (fStruct rb)); [|contradiction].
  unfold setRingBuffer. destruct (fBuffer rb) eqn:E; cbn; [exact E|].
  reflexivity.
Qed.

Lemma memcpy_whole dst src :
  length dst = length src -> memcpy dst 0 src 0 (length src) = src.
Proof.
  intros Hlen. apply (nth_ext _ _ x00 x00).
  - now rewrite memcpy_length.
  - intros i Hi. rewrite memcpy_length in Hi.
    rewrite memcpy_nth_inside by lia. f_equal. lia.
Qed.

(** [copyDataFrom] refuses a source of another capacity and otherwise
    reproduces the source's cursors, flag and bytes. *)
Lemma copyDataFrom_spec self rb :
  (size self <> size rb -> copyDataFrom self rb = self) /\
  (size self = size rb -> storage_ok self -> storage_ok rb ->
   copyDataFrom self rb = rb).
Proof.
  unfold copyDataFrom. split.
  - intros Hne. apply Z.eqb_neq in Hne. now rewrite Hne.
  - intros Heq (d & Hd & Hdl) (l & Hl & Hll).
    rewrite Heq, Z.eqb_refl. cbn [negb].
    unfold storage. rewrite Hd, Hl. cbn [option_map].
    replace (Z.to_nat (size rb)) with (length l) by lia.
    rewrite memcpy_whole by lia.
    destruct rb. cbn in *. now subst.
Qed.

(** Asking for 10 bytes gives a capacity of 16. *)
Example createBuffer_rounds_up :
  size (fStruct (snd (createBuffer 10 (fun _ => x00)
                        (CarlaHeapRingBuffer_new
                           (mkBufferStruct 0 0 0 0 false None))))) = 16.
Proof. reflexivity. Qed.
